(** * Verification of the G1 array slicer, its task-queue entry encoding and
      the serial mark-sweep-compact driver.

    Shallow embedding of
    - gc/g1/g1TaskQueueEntry.hpp           (module [TaskQueueEntry])
    - gc/g1/g1ConcurrentMarkObjArrayProcessor.cpp (module [ObjArrayProcessor])
    - gc/serial/markSweep.inline.hpp       (module [AdjustPointer])
    - gc/serial/genMarkSweep.cpp           (module [GenMarkSweep])

    Machine integers are modelled as [Z]; the 64-bit [uintptr_t] wrap-around is
    written out with [u64].  HotSpot's [assert] is only compiled in debug builds
    (when [ASSERT] is defined); the build kind is an explicit argument and a
    failing assertion in a debug build is a fatal abort, modelled as [None]. *)

From Stdlib Require Import ZArith Bool List Lia Btauto.
Import ListNotations.
Open Scope Z_scope.

(** ** HotSpot build kinds and [assert] *)

Inductive build := Debug | Product.

(** [assert(cond, ...)]: the condition is evaluated (and may itself abort, as
    in [assert(decode(...) == o)] where [decode] asserts its tag) only in debug
    builds; in product builds the whole statement is compiled out. *)
Definition hs_assert (b : build) (cond : option bool) : option unit :=
  match b with
  | Product => Some tt
  | Debug => match cond with Some true => Some tt | _ => None end
  end.

Notation "x <- m ;; k" :=
  (match m with Some x => k | None => None end)
  (at level 61, m at next level, right associativity).

(** [right_n_bits(n)] and [nth_bit(n)] from utilities/globalDefinitions.hpp. *)
Definition right_n_bits (n : Z) : Z := Z.shiftl 1 n - 1.
Definition nth_bit (n : Z) : Z := Z.shiftl 1 n.

(** [uintptr_t] arithmetic is modulo 2^64. *)
Definition u64 (x : Z) : Z := x mod 2 ^ 64.

Module TaskQueueEntry.

Definition OopTag : Z := 0.
Definition NarrowOopTag : Z := 1.
Definition TagMask : Z := 1.

Definition chunk_bits : Z := 10.
Definition pow_bits : Z := 5.
Definition oop_bits : Z := 64 - chunk_bits - pow_bits.

Definition oop_shift : Z := 0.
Definition pow_shift : Z := oop_bits.
Definition chunk_shift : Z := oop_bits + pow_bits.

Definition oop_extract_mask : Z := right_n_bits oop_bits - 3.
Definition chunk_pow_extract_mask : Z := u64 (Z.lnot (right_n_bits oop_bits)).

Definition chunk_range_mask : Z := right_n_bits chunk_bits.
Definition pow_range_mask : Z := right_n_bits pow_bits.

Definition has_tag (val tag : Z) : bool := Z.land val TagMask =? tag.

(** [decode] asserts the tag (debug builds only). *)
Definition decode (b : build) (val tag : Z) : option Z :=
  _ <- hs_assert b (Some (has_tag val tag)) ;;
  Some (Z.land val oop_extract_mask).

Definition decode_is_chunked (val : Z) : bool :=
  negb (Z.land val chunk_pow_extract_mask =? 0).

Definition decode_chunk (val : Z) : Z :=
  Z.land (Z.shiftr val chunk_shift) chunk_range_mask.

Definition decode_pow (val : Z) : Z :=
  Z.land (Z.shiftr val pow_shift) pow_range_mask.

Definition encode_oop (p tag : Z) : Z := u64 (p + tag).

(** [((uintptr_t) chunk) << chunk_shift]: the int is converted to a 64-bit
    unsigned value first, the shift then wraps modulo 2^64. *)
Definition encode_chunk (chunk : Z) : Z := u64 (Z.shiftl (u64 chunk) chunk_shift).

Definition encode_pow (pow : Z) : Z := u64 (Z.shiftl (u64 pow) pow_shift).

Definition eqb_opt (m : option Z) (x : Z) : option bool :=
  v <- m ;; Some (v =? x).

(** [G1TaskQueueEntry(oop o)] and [G1TaskQueueEntry(oop* o)]: both encode
    with [OopTag].  The result is the stored [_val]. *)
Definition new_oop (b : build) (o : Z) : option Z :=
  let enc := encode_oop o OopTag in
  _ <- hs_assert b (eqb_opt (decode b enc OopTag) o) ;;
  _ <- hs_assert b (Some (negb (decode_is_chunked enc))) ;;
  Some enc.

(** [G1TaskQueueEntry(narrowOop* o)]. *)
Definition new_narrow_oop (b : build) (o : Z) : option Z :=
  let enc := encode_oop o NarrowOopTag in
  _ <- hs_assert b (eqb_opt (decode b enc NarrowOopTag) o) ;;
  _ <- hs_assert b (Some (negb (decode_is_chunked enc))) ;;
  Some enc.

(** [G1TaskQueueEntry(oop o, int chunk, int pow)]. *)
Definition new_chunked (b : build) (o chunk pow : Z) : option Z :=
  let enc_oop := encode_oop o OopTag in
  let enc_chunk := encode_chunk chunk in
  let enc_pow := encode_pow pow in
  let enc := Z.lor (Z.lor enc_oop enc_chunk) enc_pow in
  _ <- hs_assert b (eqb_opt (decode b enc OopTag) o) ;;
  _ <- hs_assert b (Some (decode_chunk enc =? chunk)) ;;
  _ <- hs_assert b (Some (decode_pow enc =? pow)) ;;
  _ <- hs_assert b (Some (decode_is_chunked enc)) ;;
  Some enc.

Definition is_oop_ptr (val : Z) : bool :=
  negb (decode_is_chunked val) && (Z.land val NarrowOopTag =? 0).
Definition is_narrow_oop_ptr (val : Z) : bool :=
  negb (decode_is_chunked val) && negb (Z.land val NarrowOopTag =? 0).
Definition is_array_slice (val : Z) : bool := decode_is_chunked val.
Definition is_oop (val : Z) : bool := negb (decode_is_chunked val).
Definition is_null (val : Z) : bool := val =? 0.

Definition to_oop_ptr (b : build) (val : Z) : option Z := decode b val OopTag.
Definition to_narrow_oop_ptr (b : build) (val : Z) : option Z := decode b val NarrowOopTag.
Definition to_oop (b : build) (val : Z) : option Z := decode b val OopTag.
Definition chunk (val : Z) : Z := decode_chunk val.
Definition pow (val : Z) : Z := decode_pow val.

Definition max_addressable : Z := nth_bit oop_bits.
Definition chunk_size : Z := nth_bit chunk_bits.

End TaskQueueEntry.

Example tqe_chunked_example :
  TaskQueueEntry.new_chunked Debug 4096 3 7 =
  Some (4096 + 3 * 2 ^ 54 + 7 * 2 ^ 49).
Proof. vm_compute. reflexivity. Qed.

Example tqe_chunk_size : TaskQueueEntry.chunk_size = 1024.
Proof. reflexivity. Qed.

(** [log2i_graceful(x)] (utilities/powerOfTwo.hpp): the floor of the base-2
    logarithm of a positive value, and -1 for zero. *)
Definition log2i_graceful (x : Z) : Z := if x <=? 0 then -1 else Z.log2 x.

Module ObjArrayProcessor.

(** What the processor asks of its [G1CMTask]: [scan_objArray_start(array)],
    [push(G1TaskQueueEntry(array, chunk, pow))] and
    [scan_objArray(array, from, to)].  The array is fixed for one call and
    left implicit; the scan's return value (a word count) is not modelled. *)
Inductive event :=
| ScanStart
| Push (chunk pow : Z)
| Scan (from to : Z).

Section WithStride.
(** [ObjArrayMarkingStride] and the array's [length()]. *)
Variable stride : Z.
Variable len : Z.

(** The splitting loop of [process_obj].  [fuel] bounds the iterations:
    [pow] drops by one per iteration, and once [pow <= 0] the guard
    [(1 << pow) > stride] is false for a positive stride, so
    [Z.to_nat pow] iterations suffice.  Returns the pushes in order and the
    final [last_idx]. *)
Fixpoint obj_loop (fuel : nat) (chunk pow last_idx : Z) : list event * Z :=
  match fuel with
  | O => ([], last_idx)
  | S fuel' =>
      if (stride <? Z.shiftl 1 pow) && (chunk * 2 <? TaskQueueEntry.chunk_size) then
        let pow := pow - 1 in
        let left_chunk := chunk * 2 - 1 in
        let right_chunk := chunk * 2 in
        let left_chunk_end := left_chunk * Z.shiftl 1 pow in
        if left_chunk_end <? len then
          let '(evs, li) := obj_loop fuel' right_chunk pow left_chunk_end in
          (Push left_chunk pow :: evs, li)
        else obj_loop fuel' left_chunk pow last_idx
      else ([], last_idx)
  end.

(** [G1CMObjArrayProcessor::process_obj]: the events it issues, or [None]
    when an assertion fails in a debug build. *)
Definition process_obj (b : build) : option (list event) :=
  let bits := log2i_graceful len in
  let bits := if len =? Z.shiftl 1 bits then bits else bits + 1 in
  (* Handle overflow *)
  _ <- (if bits >=? 31 then hs_assert b (Some (bits =? 31)) else Some tt) ;;
  let '(pre, chunk, pow, last_idx) :=
    if bits >=? 31 then
      let pow := bits - 1 in ([Push 1 pow], 2, pow, Z.shiftl 1 pow)
    else ([], 1, bits, 0) in
  let '(evs, from) := obj_loop (Z.to_nat pow) chunk pow last_idx in
  Some (ScanStart :: pre ++ evs ++ (if from <? len then [Scan from len] else [])).

(** The splitting loop of [process_slice]: returns the pushes and the
    final [(chunk, pow)]. *)
Fixpoint slice_loop (fuel : nat) (chunk pow : Z) : list event * Z * Z :=
  match fuel with
  | O => ([], chunk, pow)
  | S fuel' =>
      if (stride <? Z.shiftl 1 pow) && (chunk * 2 <? TaskQueueEntry.chunk_size) then
        let pow := pow - 1 in
        let chunk := chunk * 2 in
        let '(evs, c, p) := slice_loop fuel' chunk pow in
        (Push (chunk - 1) pow :: evs, c, p)
      else ([], chunk, pow)
  end.

(** [G1CMObjArrayProcessor::process_slice(obj, chunk, pow)]. *)
Definition process_slice (b : build) (chunk pow : Z) : option (list event) :=
  _ <- hs_assert b (Some (0 <? stride)) ;;
  let '(evs, chunk, pow) := slice_loop (Z.to_nat pow) chunk pow in
  let chunk_size := Z.shiftl 1 pow in
  let from := (chunk - 1) * chunk_size in
  let to := chunk * chunk_size in
  _ <- hs_assert b (Some ((0 <=? from) && (from <? len))) ;;
  _ <- hs_assert b (Some ((0 <? to) && (to <=? len))) ;;
  Some (evs ++ [Scan from to]).

(** Draining the queue: every pushed entry is eventually popped by some
    worker and handed to [process_slice]; the scans it issues, and those of
    the entries it pushes in turn, are collected.  The order in which
    workers pop entries does not change the multiset of scanned ranges. *)
Fixpoint concat_opt (f : event -> option (list (Z * Z))) (l : list event)
  : option (list (Z * Z)) :=
  match l with
  | [] => Some []
  | e :: l' => r <- f e ;; rs <- concat_opt f l' ;; Some (r ++ rs)
  end.

Fixpoint drain (fuel : nat) (b : build) (e : event) : option (list (Z * Z)) :=
  match e with
  | ScanStart => Some []
  | Scan from to => Some [(from, to)]
  | Push chunk pow =>
      match fuel with
      | O => None
      | S fuel' =>
          evs <- process_slice b chunk pow ;;
          concat_opt (drain fuel' b) evs
      end
  end.

(** All [[from, to)] ranges scanned for one array: the direct scans of
    [process_obj] and the eventual scans of every entry it pushed.  Powers
    never exceed 31, so 32 levels of draining suffice. *)
Definition scanned_ranges (b : build) : option (list (Z * Z)) :=
  evs <- process_obj b ;; concat_opt (drain 32 b) evs.

(** Entries that reach the queue. *)
Inductive queued (b : build) : Z -> Z -> Prop :=
| queued_obj c p evs :
    process_obj b = Some evs -> In (Push c p) evs -> queued b c p
| queued_slice c p c' p' evs :
    queued b c p -> process_slice b c p = Some evs -> In (Push c' p') evs ->
    queued b c' p'.

End WithStride.

(** The covering power computed at the top of [process_obj]:
    [bits = log2i_graceful(len)], plus one unless [len] is a power of two. *)
Definition covering_bits (len : Z) : Z :=
  let bits := log2i_graceful len in
  if len =? Z.shiftl 1 bits then bits else bits + 1.

(** How many of the ranges cover index [i]. *)
Definition ind (from to i : Z) : Z := if (from <=? i) && (i <? to) then 1 else 0.

Fixpoint cover (i : Z) (rs : list (Z * Z)) : Z :=
  match rs with
  | [] => 0
  | (from, to) :: rs' => ind from to i + cover i rs'
  end.

End ObjArrayProcessor.

(** ** The serial full collection: [MarkSweep::adjust_pointer] *)

Module AdjustPointer.

(** The two slot types [adjust_pointer] is instantiated at ([oop] and
    [narrowOop]), through [CompressedOops::is_null], [decode_not_null] and
    the encoding done by [RawAccess<IS_NOT_NULL>::oop_store]. *)
Class HeapOop (T : Type) := {
  oop_is_null : T -> bool;
  decode_not_null : T -> Z;
  encode_not_null : Z -> T
}.

#[export] Instance oop_slot : HeapOop Z := {
  oop_is_null := fun v => v =? 0;
  decode_not_null := fun v => v;
  encode_not_null := fun a => a
}.

(** Compressed oops with a heap base and a shift. *)
Definition narrow_slot (base shift : Z) : HeapOop Z := {|
  oop_is_null := fun v => v =? 0;
  decode_not_null := fun v => base + Z.shiftl v shift;
  encode_not_null := fun a => Z.shiftr (a - base) shift
|}.

(** The words [adjust_pointer] reads and writes: reference slots, and the
    header (mark word) of every object, [obj->mark()]. *)
Record heap (T : Type) := mk_heap { slot : Z -> T; mark : Z -> Z }.
Arguments mk_heap {T} _ _.
Arguments slot {T} _ _.
Arguments mark {T} _ _.

Definition store {T} (h : heap T) (p : Z) (v : T) : heap T :=
  mk_heap (fun q => if q =? p then v else slot h q) (mark h).

Section WithForwarding.
Context {T : Type} `{HeapOop T}.
(** [Universe::heap()->is_in], [markWord::is_marked],
    [SlidingForwarding::forwardee] and [is_object_aligned]. *)
Variable is_in : Z -> bool.
Variable is_marked : Z -> bool.
Variable forwardee : Z -> Z.
Variable is_object_aligned : Z -> bool.

(** [MarkSweep::adjust_pointer(forwarding, p)]. *)
Definition adjust_pointer (b : build) (h : heap T) (p : Z) : option (heap T) :=
  let heap_oop := slot h p in
  if negb (oop_is_null heap_oop) then
    let obj := decode_not_null heap_oop in
    _ <- hs_assert b (Some (is_in obj)) ;;
    let header := mark h obj in
    if is_marked header then
      let new_obj := forwardee obj in
      _ <- hs_assert b (Some (negb (new_obj =? 0))) ;;
      _ <- hs_assert b (Some (is_object_aligned new_obj)) ;;
      Some (store h p (encode_not_null new_obj))
    else Some h
  else Some h.

(** [oop_iterate_size(&cl)] with [AdjustPointerClosure]: [do_oop] is
    [adjust_pointer] on every reference slot of the object, in iteration
    order. *)
Fixpoint adjust_slots (b : build) (h : heap T) (ps : list Z) : option (heap T) :=
  match ps with
  | [] => Some h
  | p :: ps' => h' <- adjust_pointer b h p ;; adjust_slots b h' ps'
  end.

(** [MarkSweep::adjust_pointers(forwarding, obj)].  The object's layout is
    given by its klass: [oop_fields obj] lists the addresses of its
    reference slots in the order [oop_iterate] visits them, [oop_size obj]
    is its size in words, the value [oop_iterate_size] returns. *)
Variable oop_fields : Z -> list Z.
Variable oop_size : Z -> Z.

Definition adjust_pointers (b : build) (h : heap T) (obj : Z) : option (heap T * Z) :=
  h' <- adjust_slots b h (oop_fields obj) ;; Some (h', oop_size obj).
End WithForwarding.

End AdjustPointer.

(** ** The serial full collection: [GenMarkSweep] *)

Module GenMarkSweep.

Inductive phase := Phase1 | Phase2 | Phase3 | Phase4.
Inductive generation := YoungGen | OldGen.

(** The calls the driver makes, in the order it makes them.  [Enter k] and
    [Leave k] mark entry into and return from [mark_sweep_phase<k>]. *)
Inductive call :=
| TraceHeapBeforeGC | SaveUsedRegions | GatherScratch | ReleaseScratch
| Enter (k : phase) | Leave (k : phase)
| VerifyClaimedMarksCleared | MarkRoots | ProcessDiscoveredReferences
| WeakOopsDo | ClassUnloading | ReportObjectCount
| PrepareForCompaction | AdjustRoots | AdjustWeakRoots | AdjustMarks | AdjustGenerations
| CompactGenerations | RestoreMarks | SaveMarks | FlushDedupRequests
| ClearIntoYounger (g : generation) | InvalidateOrClear (g : generation)
| PruneScavengableNmethods | UpdateCapacityAndUsed | RecordWholeHeapExamined
| TraceHeapAfterGC.

Definition HeapWordSize : Z := 8.
(** [sizeof(PreservedMark)]: an oop and a mark word. *)
Definition sizeof_PreservedMark : Z := 16.

(** The heap and the collaborators of the driver (VM state, generations, root
    enumeration, reference processing, card table).  The marking closures
    push onto and drain the marking stack, so they see it; they also return
    the [(object, header)] pairs that marking handed to
    [MarkSweep::preserve_mark], in the order it did so. *)
Record collaborators (H : Type) := {
  is_at_safepoint : bool;                             (* SafepointSynchronize::is_at_safepoint() *)
  should_clear_all_soft_refs : H -> bool;             (* gch->soft_ref_policy()->should_clear_all_soft_refs() *)
  young_used : H -> Z;                                (* young_gen()->used() *)
  follow_roots : H -> list Z -> H * list Z * list (Z * Z);
                                                      (* process_roots(SO_None, &follow_root_closure, ...) *)
  process_discovered_references : H -> list Z -> H * list Z * list (Z * Z);
  prepare_for_compaction : H -> H;
  forwardee : H -> Z -> Z;                            (* an object's new address if forwarded, else itself *)
  adjust_pointers : H -> H;                           (* generation_iterate(&GenAdjustPointersClosure) *)
  compact : H -> H;                                   (* generation_iterate(&GenCompactClosure) *)
  set_mark : H -> Z -> Z -> H;                        (* obj->set_mark(m) *)
  gather_scratch : H -> option Z                      (* the block's num_words, or nullptr *)
}.
Arguments is_at_safepoint {H} _.
Arguments should_clear_all_soft_refs {H} _ _.
Arguments young_used {H} _ _.
Arguments follow_roots {H} _ _ _.
Arguments process_discovered_references {H} _ _ _.
Arguments prepare_for_compaction {H} _ _.
Arguments forwardee {H} _ _ _.
Arguments adjust_pointers {H} _ _.
Arguments compact {H} _ _.
Arguments set_mark {H} _ _ _ _.
Arguments gather_scratch {H} _ _.

Section Driver.
Context {H : Type} (C : collaborators H).

(** The collector's own state: [MarkSweep]'s statics and the heap. *)
Record state := mk_state {
  heap : H;
  log : list call;
  ref_processor : option Z;
  total_invocations : Z;
  marking_stack : list Z;
  preserved_count_max : Z;
  preserved_count : Z;
  preserved_marks : option Z;
  preserved_array : list (Z * Z);
  preserved_overflow_stack : list (Z * Z);
  derived_pointer_table_active : bool
}.

Definition cmd := state -> option state.

Fixpoint run (cs : list cmd) : cmd :=
  fun s => match cs with
           | [] => Some s
           | c :: cs' => match c s with Some s' => run cs' s' | None => None end
           end.

Definition update (f : state -> state) : cmd := fun s => Some (f s).

Definition emit (c : call) : cmd :=
  update (fun s => mk_state (heap s) (log s ++ [c]) (ref_processor s)
    (total_invocations s) (marking_stack s) (preserved_count_max s)
    (preserved_count s) (preserved_marks s) (preserved_array s)
    (preserved_overflow_stack s) (derived_pointer_table_active s)).

Definition check (b : build) (cond : state -> bool) : cmd :=
  fun s => match hs_assert b (Some (cond s)) with Some _ => Some s | None => None end.

Definition heap_step (c : call) (f : H -> H) : cmd :=
  fun s => emit c (mk_state (f (heap s)) (log s) (ref_processor s)
    (total_invocations s) (marking_stack s) (preserved_count_max s)
    (preserved_count s) (preserved_marks s) (preserved_array s)
    (preserved_overflow_stack s) (derived_pointer_table_active s)).

Definition set_ref_processor (rp : option Z) : cmd :=
  update (fun s => mk_state (heap s) (log s) rp
    (total_invocations s) (marking_stack s) (preserved_count_max s)
    (preserved_count s) (preserved_marks s) (preserved_array s)
    (preserved_overflow_stack s) (derived_pointer_table_active s)).

(** [_total_invocations++] on the [uint] counter, which wraps at 2^32. *)
Definition incr_invocations : cmd :=
  update (fun s => mk_state (heap s) (log s) (ref_processor s)
    ((total_invocations s + 1) mod 2 ^ 32) (marking_stack s) (preserved_count_max s)
    (preserved_count s) (preserved_marks s) (preserved_array s)
    (preserved_overflow_stack s) (derived_pointer_table_active s)).

Definition set_derived_pointer_table_active (a : bool) : cmd :=
  update (fun s => mk_state (heap s) (log s) (ref_processor s)
    (total_invocations s) (marking_stack s) (preserved_count_max s)
    (preserved_count s) (preserved_marks s) (preserved_array s)
    (preserved_overflow_stack s) a).

(** [GenMarkSweep::allocate_stacks].  [_preserved_marks] now points at the
    new scratch block, which holds no record yet. *)
Definition allocate_stacks : cmd :=
  fun s =>
    let scratch := gather_scratch C (heap s) in
    let max := match scratch with
               | Some num_words => num_words * HeapWordSize / sizeof_PreservedMark
               | None => 0
               end in
    emit GatherScratch (mk_state (heap s) (log s) (ref_processor s)
      (total_invocations s) (marking_stack s) max
      0 scratch []
      (preserved_overflow_stack s) (derived_pointer_table_active s)).

(** [GenMarkSweep::deallocate_stacks]: release the scratch block, clear
    the preserved-mark overflow stack and the marking stacks. *)
Definition deallocate_stacks : cmd :=
  fun s => emit ReleaseScratch (mk_state (heap s) (log s) (ref_processor s)
    (total_invocations s) [] (preserved_count_max s)
    (preserved_count s) (preserved_marks s) (preserved_array s)
    [] (derived_pointer_table_active s)).

(** Modelled from the spec: [MarkSweep::preserve_mark] (markSweep.cpp, not
    in this source set).  A record goes to the scratch block while it has
    room ([_preserved_count < _preserved_count_max]) and otherwise to the
    unbounded overflow stack. *)
Definition preserve_mark (obj m : Z) : cmd :=
  update (fun s =>
    if preserved_count s <? preserved_count_max s then
      mk_state (heap s) (log s) (ref_processor s)
        (total_invocations s) (marking_stack s) (preserved_count_max s)
        (preserved_count s + 1) (preserved_marks s) (preserved_array s ++ [(obj, m)])
        (preserved_overflow_stack s) (derived_pointer_table_active s)
    else
      mk_state (heap s) (log s) (ref_processor s)
        (total_invocations s) (marking_stack s) (preserved_count_max s)
        (preserved_count s) (preserved_marks s) (preserved_array s)
        ((obj, m) :: preserved_overflow_stack s) (derived_pointer_table_active s)).

(** A marking step: the closure updates the heap and the marking stack, and
    every header it overwrites is preserved in turn. *)
Definition marking_step (c : call) (f : H -> list Z -> H * list Z * list (Z * Z)) : cmd :=
  fun s => let '(h, ms, recs) := f (heap s) (marking_stack s) in
    run (map (fun '(o, m) => preserve_mark o m) recs ++ [emit c])
      (mk_state h (log s) (ref_processor s)
        (total_invocations s) ms (preserved_count_max s)
        (preserved_count s) (preserved_marks s) (preserved_array s)
        (preserved_overflow_stack s) (derived_pointer_table_active s)).

(** [ref_processor()->max_num_queues()]: the installed reference processor
    is dereferenced; a null one crashes the VM in every build. *)
Definition use_ref_processor : cmd :=
  fun s => match ref_processor s with Some _ => Some s | None => None end.

(** Modelled from the spec: [MarkSweep::adjust_marks] and
    [MarkSweep::restore_marks] (markSweep.cpp).  A preserved record is the
    first [_preserved_count] entries of the scratch block, then the overflow
    stack from its top.  Adjusting a record moves its object to the
    forwardee; restoring it writes the saved header back into the heap, and
    the overflow stack is drained. *)
Definition adjust_preserved_mark (h : H) (r : Z * Z) : Z * Z :=
  let '(o, m) := r in (forwardee C h o, m).

Definition adjust_marks : cmd :=
  fun s => let n := Z.to_nat (preserved_count s) in
    emit AdjustMarks (mk_state (heap s) (log s) (ref_processor s)
      (total_invocations s) (marking_stack s) (preserved_count_max s)
      (preserved_count s) (preserved_marks s)
      (map (adjust_preserved_mark (heap s)) (firstn n (preserved_array s))
         ++ skipn n (preserved_array s))
      (map (adjust_preserved_mark (heap s)) (preserved_overflow_stack s))
      (derived_pointer_table_active s)).

Definition restore_preserved (h : H) (recs : list (Z * Z)) : H :=
  fold_left (fun h' (r : Z * Z) => let '(o, m) := r in set_mark C h' o m) recs h.

Definition restore_marks : cmd :=
  fun s =>
    let recs := firstn (Z.to_nat (preserved_count s)) (preserved_array s)
                ++ preserved_overflow_stack s in
    emit RestoreMarks (mk_state (restore_preserved (heap s) recs) (log s) (ref_processor s)
      (total_invocations s) (marking_stack s) (preserved_count_max s)
      (preserved_count s) (preserved_marks s) (preserved_array s)
      [] (derived_pointer_table_active s)).

(** [GenMarkSweep::mark_sweep_phase1].  Its [clear_all_softrefs] argument is
    not read by the body. *)
Definition mark_sweep_phase1 (b : build) : cmd :=
  run [ emit (Enter Phase1);
        emit VerifyClaimedMarksCleared;
        marking_step MarkRoots (follow_roots C);
        use_ref_processor;
        marking_step ProcessDiscoveredReferences (process_discovered_references C);
        (* assert(_marking_stack.is_empty(), "Marking should have completed") *)
        check b (fun s => match marking_stack s with [] => true | _ => false end);
        emit WeakOopsDo;
        emit ClassUnloading;
        emit ReportObjectCount;
        emit (Leave Phase1) ].

(** [GenMarkSweep::mark_sweep_phase2]. *)
Definition mark_sweep_phase2 : cmd :=
  run [ emit (Enter Phase2);
        heap_step PrepareForCompaction (prepare_for_compaction C);
        emit (Leave Phase2) ].

(** [GenMarkSweep::mark_sweep_phase3]: roots, weak roots, preserved marks
    and the generations' contents are adjusted. *)
Definition mark_sweep_phase3 : cmd :=
  run [ emit (Enter Phase3);
        emit VerifyClaimedMarksCleared;
        emit AdjustRoots;
        emit AdjustWeakRoots;
        adjust_marks;
        heap_step AdjustGenerations (adjust_pointers C);
        emit (Leave Phase3) ].

(** [GenMarkSweep::mark_sweep_phase4]. *)
Definition mark_sweep_phase4 : cmd :=
  run [ emit (Enter Phase4);
        heap_step CompactGenerations (compact C);
        emit (Leave Phase4) ].

(** The card-table decision after the collection. *)
Definition card_table_step : cmd :=
  fun s => if young_used C (heap s) =? 0
           then emit (ClearIntoYounger OldGen) s
           else emit (InvalidateOrClear OldGen) s.

(** [GenMarkSweep::invoke_at_safepoint(rp, clear_all_softrefs)], built with
    C2 or JVMCI. *)
Definition invoke_at_safepoint (b : build) (rp : option Z) (clear_all_softrefs : bool) : cmd :=
  run [ check b (fun _ => is_at_safepoint C);
        check b (fun s => implb (should_clear_all_soft_refs C (heap s)) clear_all_softrefs);
        check b (fun s => match ref_processor s with None => true | Some _ => false end);
        check b (fun _ => match rp with None => false | Some _ => true end);
        set_ref_processor rp;
        emit TraceHeapBeforeGC;
        incr_invocations;
        emit SaveUsedRegions;
        allocate_stacks;
        mark_sweep_phase1 b;
        mark_sweep_phase2;
        check b derived_pointer_table_active;
        set_derived_pointer_table_active false;
        mark_sweep_phase3;
        mark_sweep_phase4;
        restore_marks;
        emit SaveMarks;
        deallocate_stacks;
        emit FlushDedupRequests;
        card_table_step;
        emit PruneScavengableNmethods;
        set_ref_processor None;
        emit UpdateCapacityAndUsed;
        emit RecordWholeHeapExamined;
        emit TraceHeapAfterGC ].

End Driver.

(** Classification of the recorded calls. *)
Definition is_phase_marker (c : call) : bool :=
  match c with Enter _ | Leave _ => true | _ => false end.

Definition is_card_call (c : call) : bool :=
  match c with ClearIntoYounger _ | InvalidateOrClear _ => true | _ => false end.

(** Concrete configurations.  The heap is the young generation's occupancy;
    compaction evacuates it, the marking closures leave the stack as given. *)
Definition evacuating_heap : collaborators Z := {|
  is_at_safepoint := true;
  should_clear_all_soft_refs := fun _ => false;
  young_used := fun h => h;
  follow_roots := fun h ms => (h, ms, []);
  process_discovered_references := fun h _ => (h, [], []);
  prepare_for_compaction := fun h => h;
  forwardee := fun _ o => o;
  adjust_pointers := fun h => h;
  compact := fun _ => 0;
  set_mark := fun h _ _ => h;
  gather_scratch := fun _ => None |}.

(** Root processing leaves an entry on the marking stack, which reference
    processing then drains. *)
Definition roots_leave_work : collaborators unit := {|
  is_at_safepoint := true;
  should_clear_all_soft_refs := fun _ => false;
  young_used := fun _ => 0;
  follow_roots := fun h _ => (h, [1], []);
  process_discovered_references := fun h _ => (h, [], []);
  prepare_for_compaction := fun h => h;
  forwardee := fun _ o => o;
  adjust_pointers := fun h => h;
  compact := fun h => h;
  set_mark := fun h _ _ => h;
  gather_scratch := fun _ => None |}.

(** Marking leaves an entry on the marking stack for good. *)
Definition marking_leaves_work : collaborators unit := {|
  is_at_safepoint := true;
  should_clear_all_soft_refs := fun _ => false;
  young_used := fun _ => 0;
  follow_roots := fun h _ => (h, [1], []);
  process_discovered_references := fun h ms => (h, ms, []);
  prepare_for_compaction := fun h => h;
  forwardee := fun _ o => o;
  adjust_pointers := fun h => h;
  compact := fun h => h;
  set_mark := fun h _ _ => h;
  gather_scratch := fun _ => None |}.

(** A heap of headers: [h o] is the header of the object at [o].  Marking
    overwrites the headers of the objects at 8 and 16 (saved values 1 and 2),
    forwarding moves each object 8 words down, compaction moves the headers
    along and clears the old places, and the scratch block holds one record. *)
Definition sliding_heap : collaborators (Z -> Z) := {|
  is_at_safepoint := true;
  should_clear_all_soft_refs := fun _ => false;
  young_used := fun _ => 0;
  follow_roots := fun h ms => (fun o => if (o =? 8) || (o =? 16) then 3 else h o, ms, [(8, 1); (16, 2)]);
  process_discovered_references := fun h ms => (h, ms, []);
  prepare_for_compaction := fun h => h;
  forwardee := fun _ o => o - 8;
  adjust_pointers := fun h => h;
  compact := fun h o => if (o =? 0) || (o =? 8) then h (o + 8) else 0;
  set_mark := fun h o m q => if q =? o then m else h q;
  gather_scratch := fun _ => Some 2 |}.

(** A state before a collection: no reference processor installed, the
    derived pointer table active, empty stacks. *)
Definition idle_state {H : Type} (h : H) : state :=
  mk_state h [] None 0 [] 0 0 None [] [] true.

(** A state inside a collection, once [invoke_at_safepoint] has installed a
    reference processor. *)
Definition collecting_state {H : Type} (h : H) : state :=
  mk_state h [] (Some 1) 0 [] 0 0 None [] [] true.

End GenMarkSweep.

(** ** Bit-level facts about the encoding *)

Module TaskQueueEntryFacts.
Import TaskQueueEntry.

Lemma bits_high (x k n : Z) : 0 <= x < 2 ^ k -> 0 <= k <= n -> Z.testbit x n = false.
Proof.
  intros Hx Hk. rewrite <- (Z.mod_small x (2 ^ k)) by lia.
  apply Z.mod_pow2_bits_high. lia.
Qed.

Lemma oop_extract_mask_eq : oop_extract_mask = Z.ldiff (Z.ones 49) (Z.ones 2).
Proof. vm_compute. reflexivity. Qed.

Lemma chunk_pow_extract_mask_eq :
  chunk_pow_extract_mask = Z.ldiff (Z.ones 64) (Z.ones 49).
Proof. vm_compute. reflexivity. Qed.

Lemma chunk_range_mask_eq : chunk_range_mask = Z.ones 10.
Proof. reflexivity. Qed.

Lemma pow_range_mask_eq : pow_range_mask = Z.ones 5.
Proof. reflexivity. Qed.

Lemma encode_chunk_small (c : Z) : 0 <= c < 1024 -> encode_chunk c = Z.shiftl c 54.
Proof.
  intros Hc. unfold encode_chunk, u64, chunk_shift, oop_bits, chunk_bits, pow_bits.
  rewrite (Z.mod_small c) by lia. apply Z.mod_small.
  rewrite Z.shiftl_mul_pow2 by lia. simpl Z.add. lia.
Qed.

Lemma encode_pow_small (p : Z) : 0 <= p < 32 -> encode_pow p = Z.shiftl p 49.
Proof.
  intros Hp. unfold encode_pow, u64, pow_shift, oop_bits, chunk_bits, pow_bits.
  rewrite (Z.mod_small p) by lia. apply Z.mod_small.
  rewrite Z.shiftl_mul_pow2 by lia. simpl Z.sub. lia.
Qed.

Lemma encode_oop_small (o tag : Z) : 0 <= o + tag < 2 ^ 64 -> encode_oop o tag = o + tag.
Proof. intros H. apply Z.mod_small. exact H. Qed.

Ltac bitwise_specs :=
  repeat first
    [ rewrite Z.land_spec | rewrite Z.lor_spec | rewrite Z.ldiff_spec
    | rewrite Z.shiftl_spec by lia | rewrite Z.shiftr_spec by lia
    | rewrite Z.testbit_ones_nonneg by lia
    | rewrite Z.testbit_0_l ].

(** The three fields of a chunked entry occupy disjoint bit ranges. *)
Lemma chunked_bits (o c p n : Z) :
  0 <= o < 2 ^ 49 -> 0 <= c < 1024 -> 0 <= p < 32 -> 0 <= n ->
  Z.testbit (Z.lor (Z.lor o (Z.shiftl c 54)) (Z.shiftl p 49)) n =
  if n <? 49 then Z.testbit o n
  else if n <? 54 then Z.testbit p (n - 49)
  else Z.testbit c (n - 54).
Proof.
  intros Ho Hc Hp Hn. bitwise_specs.
  destruct (Z.ltb_spec n 49); [|destruct (Z.ltb_spec n 54)].
  - rewrite (Z.testbit_neg_r c), (Z.testbit_neg_r p) by lia. btauto.
  - rewrite (Z.testbit_neg_r c) by lia. rewrite (bits_high o 49) by lia. btauto.
  - rewrite (bits_high o 49), (bits_high p 5) by lia. btauto.
Qed.

Lemma aligned_low_bits (o n : Z) : Z.land o 3 = 0 -> 0 <= n < 2 -> Z.testbit o n = false.
Proof.
  intros Ha Hn. apply (f_equal (fun x => Z.testbit x n)) in Ha.
  change 3 with (Z.ones 2) in Ha.
  rewrite Z.land_spec, Z.testbit_ones_nonneg, Z.testbit_0_l in Ha by lia.
  replace (n <? 2) with true in Ha by (symmetry; apply Z.ltb_lt; lia).
  rewrite andb_true_r in Ha. exact Ha.
Qed.


Ltac case_ranges n :=
  repeat match goal with
    | |- context [n <? ?k] => destruct (Z.ltb_spec n k)
    | |- context [?k <=? n] => destruct (Z.leb_spec k n)
    end.

Ltac close_bit :=
  rewrite ?Z.add_simpl_r, ?andb_false_r, ?andb_true_r, ?orb_false_r;
  first
    [ reflexivity
    | solve [f_equal; lia]
    | solve [symmetry; apply aligned_low_bits; auto; lia]
    | solve [apply aligned_low_bits; auto; lia]
    | solve [ (symmetry + idtac);
              first [ apply (bits_high _ 49); simpl; lia
                    | apply (bits_high _ 10); simpl; lia
                    | apply (bits_high _ 5); simpl; lia
                    | apply (bits_high _ 1); simpl; lia ] ] ].

(** What [decode] returns lies below [2^49] and is 4-byte aligned. *)
Lemma decoded_range (v : Z) :
  0 <= Z.land v oop_extract_mask < 2 ^ 49 /\ Z.land (Z.land v oop_extract_mask) 3 = 0.
Proof.
  assert (Hm : Z.land v oop_extract_mask = Z.land (Z.land v oop_extract_mask) (Z.ones 49)).
  { rewrite <- Z.land_assoc. f_equal. }
  split.
  - rewrite Hm, Z.land_ones by lia. apply Z.mod_pos_bound. lia.
  - rewrite <- Z.land_assoc. replace (Z.land oop_extract_mask 3) with 0 by reflexivity.
    apply Z.land_0_r.
Qed.

Lemma shiftl_eq_0 (x n : Z) : 0 <= n -> Z.shiftl x n = 0 <-> x = 0.
Proof.
  intros Hn. rewrite Z.shiftl_mul_pow2 by lia.
  pose proof (Z.pow_pos_nonneg 2 n ltac:(lia) Hn). nia.
Qed.

Section Fields.
Variables o c p : Z.
Hypothesis Ho : 0 <= o < 2 ^ 49.
Hypothesis Hal : Z.land o 3 = 0.
Hypothesis Hc : 0 <= c < 1024.
Hypothesis Hp : 0 <= p < 32.

Let E := Z.lor (Z.lor o (Z.shiftl c 54)) (Z.shiftl p 49).

Lemma chunked_encoding : Z.lor (Z.lor (encode_oop o OopTag) (encode_chunk c)) (encode_pow p) = E.
Proof.
  unfold OopTag. rewrite encode_oop_small by lia.
  rewrite encode_chunk_small, encode_pow_small by lia. now rewrite Z.add_0_r.
Qed.

Lemma chunked_decode_oop : Z.land E oop_extract_mask = o.
Proof.
  apply Z.bits_inj'. intros n Hn. unfold E.
  rewrite oop_extract_mask_eq, Z.land_spec, chunked_bits by lia.
  bitwise_specs. case_ranges n; simpl; try lia. all: close_bit.
Qed.

Lemma chunked_decode_chunk : decode_chunk E = c.
Proof.
  apply Z.bits_inj'. intros n Hn. unfold decode_chunk, E.
  unfold chunk_shift, oop_bits, chunk_bits, pow_bits. simpl Z.sub. simpl Z.add.
  rewrite chunk_range_mask_eq, Z.land_spec, Z.shiftr_spec, chunked_bits by lia.
  rewrite Z.testbit_ones_nonneg by lia.
  case_ranges (n + 54); try lia; case_ranges n; simpl. all: close_bit.
Qed.

Lemma chunked_decode_pow : decode_pow E = p.
Proof.
  apply Z.bits_inj'. intros n Hn. unfold decode_pow, E.
  unfold pow_shift, oop_bits, chunk_bits, pow_bits. simpl Z.sub.
  rewrite pow_range_mask_eq, Z.land_spec, Z.shiftr_spec, chunked_bits by lia.
  rewrite Z.testbit_ones_nonneg by lia.
  case_ranges (n + 49); try lia; case_ranges n; simpl; try lia. all: close_bit.
Qed.

Lemma chunked_has_oop_tag : has_tag E OopTag = true.
Proof.
  unfold has_tag, TagMask, OopTag. apply Z.eqb_eq.
  apply Z.bits_inj'. intros n Hn.
  rewrite Z.land_spec, Z.testbit_0_l. change 1 with (Z.ones 1).
  unfold E. rewrite chunked_bits, Z.testbit_ones_nonneg by lia.
  case_ranges n; simpl; try lia. all: close_bit.
Qed.

Lemma chunked_is_chunked : 1 <= c -> decode_is_chunked E = true.
Proof.
  intros H1. unfold decode_is_chunked. apply negb_true_iff, Z.eqb_neq. intros H0.
  pose proof (Z.log2_nonneg c). pose proof (Z.log2_lt_pow2 c 10 ltac:(lia)).
  apply (f_equal (fun x => Z.testbit x (Z.log2 c + 54))) in H0.
  rewrite chunk_pow_extract_mask_eq, Z.land_spec, Z.ldiff_spec,
    !Z.testbit_ones_nonneg, Z.testbit_0_l in H0 by lia.
  unfold E in H0. rewrite chunked_bits in H0 by lia.
  revert H0. case_ranges (Z.log2 c + 54); try lia. simpl.
  replace (Z.log2 c + 54 - 54) with (Z.log2 c) by lia.
  rewrite Z.bit_log2 by lia. discriminate.
Qed.

(** The chunk and pow fields are what [chunk_pow_extract_mask] keeps, so
    an entry counts as chunked exactly when one of them is non-zero. *)
Lemma chunked_field_bits : Z.land E chunk_pow_extract_mask = Z.lor (Z.shiftl c 54) (Z.shiftl p 49).
Proof.
  apply Z.bits_inj'. intros n Hn. unfold E.
  rewrite chunk_pow_extract_mask_eq, Z.land_spec, chunked_bits by lia.
  bitwise_specs. case_ranges n; simpl; try lia.
  all: try rewrite (Z.testbit_neg_r c (n - 54)) by lia;
       try rewrite (Z.testbit_neg_r p (n - 49)) by lia;
       try rewrite (bits_high p 5 (n - 49)) by (simpl; lia);
       try rewrite (bits_high c 10 (n - 54)) by (simpl; lia); btauto.
Qed.

Lemma chunked_is_chunked_iff : decode_is_chunked E = negb ((c =? 0) && (p =? 0)).
Proof.
  unfold decode_is_chunked. rewrite chunked_field_bits. f_equal.
  apply eq_iff_eq_true. rewrite andb_true_iff, !Z.eqb_eq, Z.lor_eq_0_iff,
    !shiftl_eq_0 by lia. reflexivity.
Qed.

End Fields.

Section Plain.
Variable o : Z.
Hypothesis Ho : 0 <= o < 2 ^ 49.
Hypothesis Hal : Z.land o 3 = 0.

Lemma plain_bits (t n : Z) : 0 <= t < 2 -> 0 <= n ->
  Z.testbit (o + t) n = if n =? 0 then Z.testbit t 0 else Z.testbit o n.
Proof.
  intros Ht Hn.
  assert (Hd : Z.land o t = 0).
  { apply Z.bits_inj'. intros m Hm. rewrite Z.land_spec, Z.testbit_0_l.
    destruct (Z.eq_dec m 0) as [->|Hm0].
    - rewrite aligned_low_bits by (auto; lia). reflexivity.
    - rewrite (bits_high t 1 m) by (simpl; lia). apply andb_false_r. }
  rewrite Z.add_nocarry_lxor, Z.lxor_lor, Z.lor_spec by exact Hd.
  destruct (Z.eqb_spec n 0) as [->|Hn0].
  - rewrite aligned_low_bits by (auto; lia). reflexivity.
  - rewrite (bits_high t 1 n) by (simpl; lia). apply orb_false_r.
Qed.

Lemma plain_decode (t : Z) : 0 <= t < 2 -> Z.land (o + t) oop_extract_mask = o.
Proof.
  intros Ht. apply Z.bits_inj'. intros n Hn.
  rewrite oop_extract_mask_eq, Z.land_spec, plain_bits by lia.
  bitwise_specs. case_ranges n; destruct (Z.eqb_spec n 0); simpl; try lia. all: close_bit.
Qed.

Lemma plain_not_chunked (t : Z) : 0 <= t < 2 -> decode_is_chunked (o + t) = false.
Proof.
  intros Ht. unfold decode_is_chunked. apply negb_false_iff, Z.eqb_eq.
  apply Z.bits_inj'. intros n Hn.
  rewrite chunk_pow_extract_mask_eq, Z.land_spec, plain_bits, Z.ldiff_spec,
    !Z.testbit_ones_nonneg, Z.testbit_0_l by lia.
  case_ranges n; destruct (Z.eqb_spec n 0); simpl; try lia;
    try apply andb_false_r.
  rewrite (bits_high o 49) by lia. reflexivity.
Qed.

Lemma plain_tag (t : Z) : 0 <= t < 2 -> Z.land (o + t) TagMask = t.
Proof.
  intros Ht. apply Z.bits_inj'. intros n Hn. unfold TagMask.
  change 1 with (Z.ones 1).
  rewrite Z.land_spec, plain_bits, Z.testbit_ones_nonneg by lia.
  destruct (Z.eqb_spec n 0) as [Hn0|Hn0]; case_ranges n; simpl; try lia.
  all: try (subst n); close_bit.
Qed.

End Plain.

End TaskQueueEntryFacts.

Lemma hs_assert_true (b : build) : hs_assert b (Some true) = Some tt.
Proof. destruct b; reflexivity. Qed.

Module TaskQueueEntryProofs.
Import TaskQueueEntry TaskQueueEntryFacts.

Lemma decode_plain (b : build) (o t : Z) :
  0 <= o < 2 ^ 49 -> Z.land o 3 = 0 -> 0 <= t < 2 ->
  decode b (o + t) t = Some o.
Proof.
  intros Ho Ha Ht. unfold decode, has_tag.
  rewrite plain_tag, Z.eqb_refl, hs_assert_true by assumption.
  rewrite plain_decode by assumption. reflexivity.
Qed.

Lemma new_chunked_in_range (b : build) (o c p : Z) :
  0 <= o < 2 ^ 49 -> Z.land o 3 = 0 -> 1 <= c < 1024 -> 0 <= p < 32 ->
  new_chunked b o c p = Some (Z.lor (Z.lor o (Z.shiftl c 54)) (Z.shiftl p 49)).
Proof.
  intros Ho Ha Hc Hp. unfold new_chunked.
  rewrite chunked_encoding by (auto; lia).
  unfold decode. rewrite chunked_has_oop_tag, hs_assert_true by (auto; lia).
  rewrite chunked_decode_oop by (auto; lia). unfold eqb_opt. rewrite Z.eqb_refl.
  rewrite hs_assert_true.
  rewrite chunked_decode_chunk, Z.eqb_refl, hs_assert_true by (auto; lia).
  rewrite chunked_decode_pow, Z.eqb_refl, hs_assert_true by (auto; lia).
  rewrite chunked_is_chunked, hs_assert_true by (auto; lia).
  reflexivity.
Qed.

Lemma decode_chunk_range (v : Z) : 0 <= decode_chunk v < 1024.
Proof.
  unfold decode_chunk. rewrite chunk_range_mask_eq, Z.land_ones by lia.
  apply Z.mod_pos_bound. reflexivity.
Qed.

Lemma decode_pow_range (v : Z) : 0 <= decode_pow v < 32.
Proof.
  unfold decode_pow. rewrite pow_range_mask_eq, Z.land_ones by lia.
  apply Z.mod_pos_bound. reflexivity.
Qed.

(** In a debug build a successful construction has passed all four
    assertions of the constructor. *)
Lemma new_chunked_debug_sound (o c p v : Z) :
  new_chunked Debug o c p = Some v ->
  decode Debug v OopTag = Some o /\ decode_chunk v = c /\ decode_pow v = p /\
  decode_is_chunked v = true.
Proof.
  unfold new_chunked. set (enc := Z.lor _ _).
  unfold hs_assert, eqb_opt.
  destruct (decode Debug enc OopTag) as [d|] eqn:Hd; [|discriminate].
  destruct (Z.eqb_spec d o) as [<-|]; [|discriminate].
  destruct (Z.eqb_spec (decode_chunk enc) c); [|discriminate].
  destruct (Z.eqb_spec (decode_pow enc) p); [|discriminate].
  destruct (decode_is_chunked enc) eqn:Hch; [|discriminate].
  intros H. injection H as <-. auto.
Qed.

(** The constructors store the encoding they computed. *)
Lemma new_oop_value b o v : new_oop b o = Some v -> v = encode_oop o OopTag.
Proof.
  unfold new_oop. destruct (hs_assert _ _); [|discriminate].
  destruct (hs_assert _ _); [|discriminate]. congruence.
Qed.

Lemma new_narrow_oop_value b o v : new_narrow_oop b o = Some v -> v = encode_oop o NarrowOopTag.
Proof.
  unfold new_narrow_oop. destruct (hs_assert _ _); [|discriminate].
  destruct (hs_assert _ _); [|discriminate]. congruence.
Qed.

Lemma new_chunked_value b o c p v : new_chunked b o c p = Some v ->
  v = Z.lor (Z.lor (encode_oop o OopTag) (encode_chunk c)) (encode_pow p).
Proof.
  unfold new_chunked. do 4 (destruct (hs_assert _ _); [|discriminate]). congruence.
Qed.

(** The debug assertion [decode(enc, tag) == o] pins the address down. *)
Lemma decode_eq_range t v o :
  eqb_opt (decode Debug v t) o = Some true -> 0 <= o < 2 ^ 49 /\ Z.land o 3 = 0.
Proof.
  unfold eqb_opt, decode, hs_assert. destruct (has_tag v t); [|discriminate].
  cbn. intros Hq. injection Hq as Hq. apply Z.eqb_eq in Hq. subst o. apply decoded_range.
Qed.

Lemma plain_debug_iff t o :
  0 <= t < 2 ->
  (let enc := encode_oop o t in
   _ <- hs_assert Debug (eqb_opt (decode Debug enc t) o) ;;
   _ <- hs_assert Debug (Some (negb (decode_is_chunked enc))) ;;
   Some enc) <> None <-> 0 <= o < 2 ^ 49 /\ Z.land o 3 = 0.
Proof.
  intros Ht. cbv zeta. split.
  - unfold hs_assert at 1.
    destruct (eqb_opt (decode Debug (encode_oop o t) t) o) as [[|]|] eqn:Hq;
      cbn; [|congruence|congruence].
    intros _. exact (decode_eq_range _ _ _ Hq).
  - intros [Ho Ha]. rewrite encode_oop_small by lia.
    rewrite decode_plain by assumption. unfold eqb_opt.
    rewrite Z.eqb_refl, hs_assert_true, plain_not_chunked by assumption.
    cbn. discriminate.
Qed.

End TaskQueueEntryProofs.

Module ObjArrayFacts.
Import ObjArrayProcessor.

(** The nominal range of an event: a pushed entry stands for its chunk,
    a scan for its own range. *)
Definition chunk_from (c p : Z) : Z := (c - 1) * 2 ^ p.
Definition chunk_to (c p : Z) : Z := c * 2 ^ p.

Fixpoint ev_ranges (evs : list event) : list (Z * Z) :=
  match evs with
  | [] => []
  | ScanStart :: evs' => ev_ranges evs'
  | Push c p :: evs' => (chunk_from c p, chunk_to c p) :: ev_ranges evs'
  | Scan f t :: evs' => (f, t) :: ev_ranges evs'
  end.

Lemma cover_app (i : Z) (rs1 rs2 : list (Z * Z)) :
  cover i (rs1 ++ rs2) = cover i rs1 + cover i rs2.
Proof. induction rs1 as [|[f t] rs1 IH]; simpl; [reflexivity|]. rewrite IH. lia. Qed.

Lemma ev_ranges_app (l1 l2 : list event) :
  ev_ranges (l1 ++ l2) = ev_ranges l1 ++ ev_ranges l2.
Proof. induction l1 as [|[| |] l1 IH]; simpl; try rewrite IH; reflexivity. Qed.

Lemma ind_split (a m c i : Z) : a <= m <= c -> ind a m i + ind m c i = ind a c i.
Proof.
  intros H. unfold ind.
  destruct (Z.leb_spec a i), (Z.ltb_spec i m), (Z.leb_spec m i), (Z.ltb_spec i c);
    simpl; lia.
Qed.

Lemma ind_empty (a c i : Z) : c <= a -> ind a c i = 0.
Proof.
  intros H. unfold ind. destruct (Z.leb_spec a i), (Z.ltb_spec i c); simpl; lia.
Qed.

Lemma shiftl_pow (p : Z) : Z.shiftl 1 p = 2 ^ p.
Proof. apply Z.shiftl_1_l. Qed.

(** A guard [(1 << pow) > stride] with a positive stride forces [pow >= 1]. *)
Lemma guard_pow (stride p : Z) : 1 <= stride -> stride < 2 ^ p -> 1 <= p.
Proof.
  intros Hs Hg. destruct (Z.lt_ge_cases p 1) as [Hp|Hp]; [|exact Hp].
  destruct (Z.lt_ge_cases p 0).
  - rewrite Z.pow_neg_r in Hg by lia. lia.
  - replace p with 0 in Hg by lia. simpl in Hg. lia.
Qed.

Lemma pow_pred (p : Z) : 1 <= p -> 2 ^ p = 2 * 2 ^ (p - 1).
Proof.
  intros Hp. replace p with (Z.succ (p - 1)) at 1 by lia.
  apply Z.pow_succ_r. lia.
Qed.

Section Stride.
Variables stride len : Z.
Hypothesis Hstride : 1 <= stride.

Lemma obj_loop_spec (fuel : nat) : forall c p li evs li',
  obj_loop stride len fuel c p li = (evs, li') ->
  1 <= c -> li = (c - 1) * 2 ^ p -> 0 <= li < len ->
  (forall e, In e evs -> exists c' p', e = Push c' p' /\
     1 <= c' < 1024 /\ 0 <= p' < p /\ li <= chunk_from c' p' /\ chunk_to c' p' < len) /\
  li <= li' < len /\
  (forall i, cover i (ev_ranges evs) + ind li' len i = ind li len i).
Proof.
  induction fuel as [|fuel IH]; intros c p li evs li' Hrun Hc Hli Hlen; simpl in Hrun.
  { injection Hrun as <- <-. simpl. repeat split; try lia; intros; contradiction. }
  rewrite shiftl_pow in Hrun.
  destruct (Z.ltb_spec stride (2 ^ p)) as [Hg|Hg]; simpl in Hrun;
    [| injection Hrun as <- <-; simpl; repeat split; try lia; intros; contradiction].
  destruct (Z.ltb_spec (c * 2) TaskQueueEntry.chunk_size) as [Hch|Hch]; simpl in Hrun;
    [| injection Hrun as <- <-; simpl; repeat split; try lia; intros; contradiction].
  change TaskQueueEntry.chunk_size with 1024 in Hch.
  pose proof (guard_pow stride p Hstride Hg) as Hp1.
  pose proof (pow_pred p Hp1) as HP.
  pose proof (Z.pow_pos_nonneg 2 (p - 1) ltac:(lia) ltac:(lia)) as HPpos.
  rewrite shiftl_pow in Hrun.
  set (P := 2 ^ (p - 1)) in *.
  destruct (Z.ltb_spec ((c * 2 - 1) * P) len) as [Hle|Hle].
  - destruct (obj_loop stride len fuel (c * 2) (p - 1) ((c * 2 - 1) * P))
      as [evs1 li1] eqn:Hrec.
    injection Hrun as <- <-.
    destruct (IH _ _ _ _ _ Hrec) as (Hpush & Hli' & Hcov); [lia|nia|nia|].
    split; [|split].
    + intros e [<-|Hin].
      * exists (c * 2 - 1), (p - 1). unfold chunk_from, chunk_to. fold P.
        repeat split; try lia; nia.
      * destruct (Hpush e Hin) as (c' & p' & -> & H1 & H2 & H3 & H4).
        exists c', p'. repeat split; try lia; nia.
    + nia.
    + intros i. simpl. unfold chunk_from, chunk_to. fold P.
      rewrite <- Z.add_assoc, Hcov.
      replace ((c * 2 - 1 - 1) * P) with li by nia.
      apply ind_split. nia.
  - destruct (IH _ _ _ _ _ Hrun) as (Hpush & Hli' & Hcov); [lia|nia|lia|].
    split; [|split]; [|lia|exact Hcov].
    intros e Hin. destruct (Hpush e Hin) as (c' & p' & -> & H1 & H2 & H3 & H4).
    exists c', p'. repeat split; lia.
Qed.


Lemma slice_loop_spec (fuel : nat) : forall c p evs c' p',
  slice_loop stride fuel c p = (evs, c', p') -> 1 <= c -> 0 <= p ->
  (forall e, In e evs -> exists cc pp, e = Push cc pp /\
     1 <= cc < 1024 /\ 0 <= pp < p /\
     chunk_from c p <= chunk_from cc pp /\ chunk_to cc pp <= chunk_to c p) /\
  1 <= c' /\ 0 <= p' <= p /\ (c < 1024 -> c' < 1024) /\
  chunk_from c p <= chunk_from c' p' /\ chunk_to c' p' = chunk_to c p /\
  (forall i, cover i (ev_ranges evs) + ind (chunk_from c' p') (chunk_to c' p') i =
             ind (chunk_from c p) (chunk_to c p) i).
Proof.
  induction fuel as [|fuel IH]; intros c p evs c' p' Hrun Hc Hp; simpl in Hrun.
  { injection Hrun as <- <- <-. simpl. repeat split; try lia; intros; contradiction. }
  rewrite shiftl_pow in Hrun.
  destruct (Z.ltb_spec stride (2 ^ p)) as [Hg|Hg]; simpl in Hrun;
    [| injection Hrun as <- <- <-; simpl; repeat split; try lia; intros; contradiction].
  destruct (Z.ltb_spec (c * 2) TaskQueueEntry.chunk_size) as [Hch|Hch]; simpl in Hrun;
    [| injection Hrun as <- <- <-; simpl; repeat split; try lia; intros; contradiction].
  change TaskQueueEntry.chunk_size with 1024 in Hch.
  pose proof (guard_pow stride p Hstride Hg) as Hp1.
  destruct (slice_loop stride fuel (c * 2) (p - 1)) as [[evs1 c1] p1] eqn:Hrec.
  injection Hrun as <- <- <-.
  destruct (IH _ _ _ _ _ Hrec) as (Hpush & Hc1 & Hp1' & Hlt & Hfrom & Hto & Hcov);
    [lia|lia|].
  pose proof (pow_pred p Hp1) as HP.
  pose proof (Z.pow_pos_nonneg 2 (p - 1) ltac:(lia) ltac:(lia)) as HPpos.
  unfold chunk_from, chunk_to in *. set (P := 2 ^ (p - 1)) in *.
  split; [|repeat split; try lia; try nia].
  - intros e [<-|Hin].
    + exists (c * 2 - 1), (p - 1). fold P. repeat split; try lia; nia.
    + destruct (Hpush e Hin) as (cc & pp & -> & H1 & H2 & H3 & H4).
      exists cc, pp. repeat split; try lia; nia.
  - intros i. simpl. unfold chunk_from, chunk_to. fold P. rewrite <- Z.add_assoc, Hcov.
    replace ((c * 2 - 1 - 1) * P) with ((c - 1) * 2 ^ p) by nia.
    replace (c * 2 * P) with (c * 2 ^ p) by nia.
    apply ind_split. nia.
Qed.

Lemma process_slice_spec (b : build) (c p : Z) :
  1 <= c < 1024 -> 0 <= p -> chunk_to c p <= len ->
  exists evs from to,
    process_slice stride len b c p = Some (evs ++ [Scan from to]) /\
    (forall e, In e evs -> exists cc pp, e = Push cc pp /\
       1 <= cc < 1024 /\ 0 <= pp < p /\
       chunk_from c p <= chunk_from cc pp /\ chunk_to cc pp <= chunk_to c p) /\
    chunk_from c p <= from < to /\ to = chunk_to c p /\
    0 <= from < len /\ 0 < to <= len /\
    (forall i, cover i (ev_ranges evs) + ind from to i =
               ind (chunk_from c p) (chunk_to c p) i).
Proof.
  intros Hc Hp Hlen. unfold process_slice.
  assert (Hs : (0 <? stride) = true) by (apply Z.ltb_lt; lia).
  rewrite Hs, hs_assert_true.
  destruct (slice_loop stride (Z.to_nat p) c p) as [[evs c'] p'] eqn:Hrun.
  destruct (slice_loop_spec _ _ _ _ _ _ Hrun) as
    (Hpush & Hc' & Hp' & Hlt & Hfrom & Hto & Hcov); [lia|lia|].
  rewrite shiftl_pow.
  pose proof (Z.pow_pos_nonneg 2 p' ltac:(lia) ltac:(lia)) as HP'.
  pose proof (Z.pow_pos_nonneg 2 p ltac:(lia) ltac:(lia)) as HP.
  unfold chunk_from, chunk_to in *.
  assert (H1 : (0 <=? (c' - 1) * 2 ^ p') && ((c' - 1) * 2 ^ p' <? len) = true).
  { apply andb_true_iff; split; [apply Z.leb_le | apply Z.ltb_lt]; nia. }
  assert (H2 : (0 <? c' * 2 ^ p') && (c' * 2 ^ p' <=? len) = true).
  { apply andb_true_iff; split; [apply Z.ltb_lt | apply Z.leb_le]; nia. }
  rewrite H1, H2, !hs_assert_true.
  exists evs, ((c' - 1) * 2 ^ p'), (c' * 2 ^ p').
  split; [reflexivity|]. split; [exact Hpush|]. repeat split; try nia.
  exact Hcov.
Qed.

Lemma concat_opt_spec (f : event -> option (list (Z * Z))) (evs : list event) :
  (forall e, In e evs -> exists r, f e = Some r /\
     forall i, cover i r = cover i (ev_ranges [e])) ->
  exists rs, concat_opt f evs = Some rs /\
    forall i, cover i rs = cover i (ev_ranges evs).
Proof.
  induction evs as [|e evs IH]; intros Hall; cbn [concat_opt].
  - exists []. split; reflexivity.
  - destruct (Hall e (or_introl eq_refl)) as (r & -> & Hr).
    destruct IH as (rs & -> & Hrs); [intros; apply Hall; right; assumption|].
    exists (r ++ rs). split; [reflexivity|]. intros i.
    rewrite cover_app, Hr, Hrs.
    change (e :: evs) with ([e] ++ evs). rewrite ev_ranges_app, cover_app. reflexivity.
Qed.

Lemma drain_spec (b : build) (fuel : nat) : forall c p,
  1 <= c < 1024 -> 0 <= p -> chunk_to c p <= len -> (Z.to_nat p < fuel)%nat ->
  exists rs, drain stride len fuel b (Push c p) = Some rs /\
    forall i, cover i rs = ind (chunk_from c p) (chunk_to c p) i.
Proof.
  induction fuel as [|fuel IH]; intros c p Hc Hp Hlen Hfuel; [lia|].
  simpl. destruct (process_slice_spec b c p Hc Hp Hlen) as
    (evs & from & to & -> & Hpush & Hft & Hto & _ & _ & Hcov).
  destruct (concat_opt_spec (drain stride len fuel b) (evs ++ [Scan from to]))
    as (rs & Hrs & Hcrs).
  - intros e Hin. apply in_app_or in Hin as [Hin|[<-|[]]].
    + destruct (Hpush e Hin) as (cc & pp & -> & H1 & H2 & H3 & H4).
      destruct (IH cc pp) as (r & Hr & Hcr); try lia.
      exists r. split; [exact Hr|]. intros i. rewrite Hcr. simpl. lia.
    + exists [(from, to)]. split; [destruct fuel; reflexivity | reflexivity].
  - exists rs. split; [exact Hrs|]. intros i.
    rewrite Hcrs, ev_ranges_app, cover_app, <- Hcov. simpl. lia.
Qed.

Lemma covering_bits_spec :
  1 <= len <= 2 ^ 31 - 1 ->
  0 <= covering_bits len <= 31 /\ len <= 2 ^ covering_bits len /\
  (covering_bits len = 31 -> 2 ^ 30 < len).
Proof.
  intros Hl. unfold covering_bits, log2i_graceful.
  destruct (Z.leb_spec len 0); [lia|].
  pose proof (Z.log2_spec len ltac:(lia)) as [Hlo Hhi].
  pose proof (Z.log2_nonneg len).
  assert (Hb : Z.log2 len < 31) by (apply Z.log2_lt_pow2; lia).
  rewrite Z.pow_succ_r in Hhi by lia.
  rewrite shiftl_pow.
  destruct (Z.eqb_spec len (2 ^ Z.log2 len)) as [He|He].
  - repeat split; try lia.
  - repeat split; try lia.
    + rewrite Z.pow_add_r by lia. change (2 ^ 1) with 2. lia.
    + intros H31. assert (Hl30 : Z.log2 len = 30) by lia.
      rewrite Hl30 in Hlo, He. lia.
Qed.

Lemma process_obj_spec (b : build) :
  1 <= len <= 2 ^ 31 - 1 ->
  exists evs, process_obj stride len b = Some evs /\
    (forall e, In e evs ->
       e = ScanStart \/
       (exists c p, e = Push c p /\ 1 <= c < 1024 /\ 0 <= p <= 30 /\
          0 <= chunk_from c p /\ chunk_to c p < len) \/
       (exists from to, e = Scan from to)) /\
    (forall i, cover i (ev_ranges evs) = ind 0 len i).
Proof.
  intros Hl. pose proof (covering_bits_spec Hl) as (Hb & Hcov_len & H31).
  unfold process_obj. fold (covering_bits len).
  set (bits := covering_bits len) in *.
  destruct (Z.geb_spec bits 31) as [Hge|Hlt].
  - assert (Hb31 : bits = 31) by lia. rewrite Hb31, Z.eqb_refl, hs_assert_true.
    change (31 - 1) with 30. specialize (H31 Hb31). rewrite shiftl_pow.
    destruct (obj_loop stride len (Z.to_nat 30) 2 30 (2 ^ 30)) as [evs li] eqn:Hrun.
    destruct (obj_loop_spec _ _ _ _ _ _ Hrun) as (Hpush & Hli & Hcov); [lia|lia|lia|].
    destruct (Z.ltb_spec li len); [|lia].
    eexists. split; [reflexivity|]. split.
    + intros e Hin. simpl in Hin. destruct Hin as [<-|[<-|Hin]]; [left; reflexivity| |].
      * right; left. exists 1, 30. unfold chunk_from, chunk_to. repeat split; lia.
      * apply in_app_or in Hin as [Hin|[<-|[]]].
        -- destruct (Hpush e Hin) as (c' & p' & -> & H1 & H2 & H3 & H4).
           right; left. exists c', p'. repeat split; lia.
        -- right; right. eauto.
    + intros i. cbn [ev_ranges cover app].
      rewrite !ev_ranges_app, !cover_app. cbn [ev_ranges cover].
      unfold chunk_from, chunk_to. replace ((1 - 1) * 2 ^ 30) with 0 by lia.
      specialize (Hcov i). pose proof (ind_split 0 (2 ^ 30) len i). rewrite Z.mul_1_l. lia.
  - destruct (obj_loop stride len (Z.to_nat bits) 1 bits 0) as [evs li] eqn:Hrun.
    destruct (obj_loop_spec _ _ _ _ _ _ Hrun) as (Hpush & Hli & Hcov); [lia|lia|lia|].
    destruct (Z.ltb_spec li len); [|lia].
    eexists. split; [reflexivity|]. split.
    + intros e Hin. simpl in Hin. destruct Hin as [<-|Hin]; [left; reflexivity|].
      apply in_app_or in Hin as [Hin|[<-|[]]].
      * destruct (Hpush e Hin) as (c' & p' & -> & H1 & H2 & H3 & H4).
        right; left. exists c', p'. repeat split; lia.
      * right; right. eauto.
    + intros i. cbn [ev_ranges cover app].
      rewrite !ev_ranges_app, !cover_app. cbn [ev_ranges cover].
      specialize (Hcov i). lia.
Qed.

Lemma queued_full (b : build) (c p : Z) :
  1 <= len <= 2 ^ 31 - 1 -> queued stride len b c p ->
  1 <= c < 1024 /\ 0 <= p <= 30 /\ 0 <= chunk_from c p /\ chunk_to c p <= len.
Proof.
  intros Hl Hq. induction Hq as [c p evs Hobj Hin | c p c' p' evs Hq IH Hsl Hin].
  - destruct (process_obj_spec b Hl) as (evs' & Hobj' & Hall & _).
    rewrite Hobj in Hobj'. injection Hobj' as <-.
    destruct (Hall _ Hin) as [H|[(c' & p' & He & H1 & H2 & H3 & H4)|(f & t & H)]];
      try discriminate.
    injection He as <- <-. repeat split; lia.
  - destruct IH as (H1 & H2 & H3 & H4).
    destruct (process_slice_spec b c p H1 ltac:(lia) H4) as
      (evs1 & from & to & Hsl' & Hpush & _).
    rewrite Hsl in Hsl'. injection Hsl' as ->.
    apply in_app_or in Hin as [Hin|[He|[]]]; [|discriminate].
    destruct (Hpush _ Hin) as (cc & pp & He & G1 & G2 & G3 & G4).
    injection He as <- <-. unfold chunk_from, chunk_to in *.
    pose proof (Z.pow_pos_nonneg 2 p' ltac:(lia) ltac:(lia)).
    repeat split; try lia; nia.
Qed.

Lemma process_slice_product_len (len' c p : Z) :
  process_slice stride len' Product c p = process_slice stride len Product c p.
Proof.
  unfold process_slice. simpl.
  destruct (slice_loop stride (Z.to_nat p) c p) as [[evs c'] p']. reflexivity.
Qed.

(** The halving loop of [process_slice] runs until the chunk is at most a
    stride long or the chunk number reaches the cap, pushing one entry per
    halving. *)
Lemma slice_loop_end (fuel : nat) : forall c p evs c' p',
  slice_loop stride fuel c p = (evs, c', p') -> 0 <= p -> (Z.to_nat p <= fuel)%nat ->
  0 <= p' <= p /\ c' = c * 2 ^ (p - p') /\ Z.of_nat (length evs) = p - p' /\
  (2 ^ p' <= stride \/ 1024 <= c' * 2).
Proof.
  induction fuel as [|fuel IH]; intros c p evs c' p' Hrun Hp Hf; simpl in Hrun.
  - injection Hrun as <- <- <-. assert (p = 0) by lia. subst p. simpl.
    repeat split; lia.
  - rewrite shiftl_pow in Hrun.
    destruct (Z.ltb_spec stride (2 ^ p)) as [Hg|Hg]; simpl in Hrun;
      [| injection Hrun as <- <- <-; rewrite Z.sub_diag; simpl; repeat split; lia].
    destruct (Z.ltb_spec (c * 2) TaskQueueEntry.chunk_size) as [Hch|Hch]; simpl in Hrun;
      [| injection Hrun as <- <- <-; rewrite Z.sub_diag; change TaskQueueEntry.chunk_size with 1024 in Hch;
         simpl; repeat split; lia].
    pose proof (guard_pow stride p Hstride Hg) as Hp1.
    destruct (slice_loop stride fuel (c * 2) (p - 1)) as [[evs1 c1] p1] eqn:Hrec.
    injection Hrun as <- <- <-.
    destruct (IH _ _ _ _ _ Hrec) as (Hp1' & Hc1 & Hl & Hend); [lia|lia|].
    simpl length. rewrite Nat2Z.inj_succ, Hl.
    repeat split; try lia.
    rewrite Hc1. replace (p - p1) with (Z.succ (p - 1 - p1)) by lia.
    rewrite Z.pow_succ_r by lia. ring.
Qed.
End Stride.

End ObjArrayFacts.

(** ** Facts about [MarkSweep::adjust_pointers] *)

Module AdjustPointerFacts.
Import AdjustPointer.

Section Adjust.
Context {T : Type} `{HeapOop T}.
Variable is_in is_marked : Z -> bool.
Variable forwardee : Z -> Z.
Variable is_object_aligned : Z -> bool.

(** The value [adjust_pointer] leaves in a slot that held [v], given the
    headers [m]. *)
Definition adjusted (m : Z -> Z) (v : T) : T :=
  if oop_is_null v then v
  else if is_marked (m (decode_not_null v)) then encode_not_null (forwardee (decode_not_null v))
  else v.

(** The debug assertions of [adjust_pointer] hold for a slot holding [v]. *)
Definition asserts_hold (m : Z -> Z) (v : T) : Prop :=
  oop_is_null v = false ->
  is_in (decode_not_null v) = true /\
  (is_marked (m (decode_not_null v)) = true ->
     forwardee (decode_not_null v) <> 0 /\
     is_object_aligned (forwardee (decode_not_null v)) = true).

Lemma adjust_pointer_frame b h p h' :
  adjust_pointer is_in is_marked forwardee is_object_aligned b h p = Some h' ->
  mark h' = mark h /\ (forall q, q <> p -> slot h' q = slot h q).
Proof.
  unfold adjust_pointer.
  destruct (oop_is_null (slot h p)); cbn; [intros [= <-]; auto|].
  destruct (hs_assert _ _); [|discriminate].
  destruct (is_marked _); [|intros [= <-]; auto].
  destruct (hs_assert _ _); [|discriminate].
  destruct (hs_assert _ _); [|discriminate].
  intros [= <-]. cbn. split; [reflexivity|]. intros q Hq.
  apply Z.eqb_neq in Hq. rewrite Hq. reflexivity.
Qed.

Lemma adjust_pointer_effect b h p :
  (b = Product \/ asserts_hold (mark h) (slot h p)) ->
  exists h', adjust_pointer is_in is_marked forwardee is_object_aligned b h p = Some h' /\
    mark h' = mark h /\
    forall q, slot h' q = if q =? p then adjusted (mark h) (slot h p) else slot h q.
Proof.
  intros Hok. unfold adjust_pointer, adjusted.
  destruct (oop_is_null (slot h p)) eqn:Hn; cbn.
  { exists h. repeat split. intros q. destruct (Z.eqb_spec q p); subst; reflexivity. }
  assert (Hin : hs_assert b (Some (is_in (decode_not_null (slot h p)))) = Some tt).
  { destruct Hok as [-> | Hok]; [reflexivity|]. rewrite (proj1 (Hok Hn)). apply hs_assert_true. }
  rewrite Hin.
  destruct (is_marked (mark h (decode_not_null (slot h p)))) eqn:Hm.
  - assert (Hf : hs_assert b (Some (negb (forwardee (decode_not_null (slot h p)) =? 0))) = Some tt /\
                 hs_assert b (Some (is_object_aligned (forwardee (decode_not_null (slot h p))))) = Some tt).
    { destruct Hok as [-> | Hok]; [split; reflexivity|].
      destruct (proj2 (Hok Hn) Hm) as [Hz Ha]. apply Z.eqb_neq in Hz.
      rewrite Hz, Ha. split; apply hs_assert_true. }
    destruct Hf as [-> ->]. eexists. split; [reflexivity|]. split; [reflexivity|].
    intros q. cbn. reflexivity.
  - exists h. repeat split. intros q. destruct (Z.eqb_spec q p); subst; reflexivity.
Qed.

Lemma adjust_slots_frame b ps : forall h h',
  adjust_slots is_in is_marked forwardee is_object_aligned b h ps = Some h' ->
  mark h' = mark h /\ (forall q, ~ In q ps -> slot h' q = slot h q).
Proof.
  induction ps as [|p ps IH]; intros h h' Hs; cbn in Hs.
  - injection Hs as <-. split; [reflexivity|]. auto.
  - destruct (adjust_pointer _ _ _ _ b h p) as [h1|] eqn:H1; [|discriminate].
    destruct (adjust_pointer_frame _ _ _ _ H1) as [Hm1 Hs1].
    destruct (IH _ _ Hs) as [Hm2 Hs2]. split; [congruence|].
    intros q Hq. rewrite Hs2 by (intros Hi; apply Hq; right; exact Hi).
    apply Hs1. intros ->. apply Hq. left. reflexivity.
Qed.

Lemma adjust_slots_effect b ps : forall h,
  NoDup ps -> (b = Product \/ forall p, In p ps -> asserts_hold (mark h) (slot h p)) ->
  exists h', adjust_slots is_in is_marked forwardee is_object_aligned b h ps = Some h' /\
    mark h' = mark h /\
    forall q, slot h' q = if existsb (Z.eqb q) ps then adjusted (mark h) (slot h q) else slot h q.
Proof.
  induction ps as [|p ps IH]; intros h Hnd Hok; cbn.
  - exists h. auto.
  - inversion Hnd as [|? ? Hnot Hnd']; subst.
    destruct (adjust_pointer_effect b h p) as (h1 & H1 & Hm1 & Hs1).
    { destruct Hok as [-> | Hok]; [left; reflexivity | right; apply Hok; left; reflexivity]. }
    rewrite H1.
    destruct (IH h1 Hnd') as (h2 & H2 & Hm2 & Hs2).
    { destruct Hok as [-> | Hok]; [left; reflexivity | right].
      intros p' Hp'. rewrite Hm1, Hs1.
      destruct (Z.eqb_spec p' p) as [->|]; [contradiction|]. apply Hok. right. exact Hp'. }
    exists h2. split; [exact H2|]. split; [congruence|].
    intros q. rewrite Hs2, Hm1, Hs1.
    destruct (Z.eqb_spec q p) as [->|Hqp]; cbn.
    + rewrite ?Z.eqb_refl.
      assert (Hx : existsb (Z.eqb p) ps = false).
      { apply Bool.not_true_iff_false. intros Hx. apply existsb_exists in Hx as (x & Hx & Hpx).
        apply Z.eqb_eq in Hpx. subst x. contradiction. }
      rewrite Hx. reflexivity.
    + reflexivity.
Qed.

End Adjust.

End AdjustPointerFacts.

(** ** Facts about the serial full collection *)

Module GenMarkSweepFacts.
Import GenMarkSweep.

(** What a sequence of [preserve_mark] calls does to the scratch block's
    count and contents and to the overflow stack, given the capacity. *)
Fixpoint preserve_fold (max : Z) (recs : list (Z * Z)) (cnt : Z) (arr ov : list (Z * Z))
  : Z * list (Z * Z) * list (Z * Z) :=
  match recs with
  | [] => (cnt, arr, ov)
  | r :: rs => if cnt <? max then preserve_fold max rs (cnt + 1) (arr ++ [r]) ov
               else preserve_fold max rs cnt arr (r :: ov)
  end.

Lemma preserve_fold_app max r1 r2 : forall cnt arr ov,
  preserve_fold max (r1 ++ r2) cnt arr ov =
  let '(c1, a1, o1) := preserve_fold max r1 cnt arr ov in preserve_fold max r2 c1 a1 o1.
Proof.
  induction r1 as [|r r1 IH]; intros cnt arr ov; cbn; [reflexivity|].
  destruct (cnt <? max); apply IH.
Qed.

(** The first [max - cnt] records fill the scratch block in order, the rest
    are pushed onto the overflow stack. *)
Lemma preserve_fold_closed max recs : forall cnt arr ov,
  preserve_fold max recs cnt arr ov =
  (cnt + Z.of_nat (Nat.min (Z.to_nat (max - cnt)) (length recs)),
   arr ++ firstn (Z.to_nat (max - cnt)) recs,
   rev (skipn (Z.to_nat (max - cnt)) recs) ++ ov).
Proof.
  induction recs as [|r rs IH]; intros cnt arr ov; cbn [preserve_fold].
  - rewrite firstn_nil, skipn_nil, Nat.min_0_r, app_nil_r. cbn [Z.of_nat rev app].
    rewrite Z.add_0_r. reflexivity.
  - rewrite !IH. destruct (cnt <? max) eqn:E.
    + apply Z.ltb_lt in E.
      replace (Z.to_nat (max - cnt)) with (S (Z.to_nat (max - (cnt + 1)))) by lia.
      cbn [firstn skipn length Nat.min rev]. rewrite <- app_assoc.
      f_equal; try f_equal; try lia; reflexivity.
    + apply Z.ltb_ge in E.
      replace (Z.to_nat (max - cnt)) with 0%nat by lia.
      cbn [firstn skipn length Nat.min rev]. rewrite app_nil_r, <- app_assoc.
      reflexivity.
Qed.

Section Driver.
Context {H : Type} (C : collaborators H).
Local Abbreviation cmd := (@GenMarkSweep.cmd H).
Local Abbreviation state := (@GenMarkSweep.state H).

Ltac proj := cbn [heap log ref_processor total_invocations marking_stack preserved_count_max
                  preserved_count preserved_marks preserved_array preserved_overflow_stack
                  derived_pointer_table_active].

Lemma run_step (c : cmd) cs (s : state) :
  run (c :: cs) s = match c s with Some s' => run cs s' | None => None end.
Proof. reflexivity. Qed.

Lemma run_nil (s : state) : @run H [] s = Some s.
Proof. reflexivity. Qed.

Lemma run_app_eq (cs1 cs2 : list cmd) (s : state) :
  run (cs1 ++ cs2) s = match run cs1 s with Some s1 => run cs2 s1 | None => None end.
Proof.
  revert s. induction cs1 as [|c cs1 IH]; intro s; [reflexivity|].
  cbn. destruct (c s); [apply IH | reflexivity].
Qed.

Lemma emit_eq c (s : state) : emit c s =
  Some (mk_state (heap s) (log s ++ [c]) (ref_processor s) (total_invocations s)
          (marking_stack s) (preserved_count_max s) (preserved_count s) (preserved_marks s)
          (preserved_array s) (preserved_overflow_stack s) (derived_pointer_table_active s)).
Proof. reflexivity. Qed.

Lemma check_eq b f (s : state) :
  @check H b f s = if match b with Debug => f s | Product => true end then Some s else None.
Proof. destruct b; unfold check, hs_assert; [destruct (f s)|]; reflexivity. Qed.

Lemma heap_step_eq c f (s : state) : heap_step c f s =
  Some (mk_state (f (heap s)) (log s ++ [c]) (ref_processor s) (total_invocations s)
          (marking_stack s) (preserved_count_max s) (preserved_count s) (preserved_marks s)
          (preserved_array s) (preserved_overflow_stack s) (derived_pointer_table_active s)).
Proof. reflexivity. Qed.

Lemma set_ref_processor_eq rp (s : state) : set_ref_processor rp s =
  Some (mk_state (heap s) (log s) rp (total_invocations s) (marking_stack s)
          (preserved_count_max s) (preserved_count s) (preserved_marks s)
          (preserved_array s) (preserved_overflow_stack s) (derived_pointer_table_active s)).
Proof. reflexivity. Qed.

Lemma incr_invocations_eq (s : state) : incr_invocations s =
  Some (mk_state (heap s) (log s) (ref_processor s) ((total_invocations s + 1) mod 2 ^ 32)
          (marking_stack s) (preserved_count_max s) (preserved_count s) (preserved_marks s)
          (preserved_array s) (preserved_overflow_stack s) (derived_pointer_table_active s)).
Proof. reflexivity. Qed.

Lemma set_derived_pointer_table_active_eq a (s : state) : set_derived_pointer_table_active a s =
  Some (mk_state (heap s) (log s) (ref_processor s) (total_invocations s) (marking_stack s)
          (preserved_count_max s) (preserved_count s) (preserved_marks s)
          (preserved_array s) (preserved_overflow_stack s) a).
Proof. reflexivity. Qed.

Lemma allocate_stacks_eq (s : state) : allocate_stacks C s =
  Some (mk_state (heap s) (log s ++ [GatherScratch]) (ref_processor s) (total_invocations s)
          (marking_stack s)
          (match gather_scratch C (heap s) with
           | Some n => n * HeapWordSize / sizeof_PreservedMark | None => 0 end)
          0 (gather_scratch C (heap s)) [] (preserved_overflow_stack s)
          (derived_pointer_table_active s)).
Proof. reflexivity. Qed.

Lemma deallocate_stacks_eq (s : state) : deallocate_stacks s =
  Some (mk_state (heap s) (log s ++ [ReleaseScratch]) (ref_processor s) (total_invocations s)
          [] (preserved_count_max s) (preserved_count s) (preserved_marks s)
          (preserved_array s) [] (derived_pointer_table_active s)).
Proof. reflexivity. Qed.

Lemma use_ref_processor_eq (s : state) : use_ref_processor s =
  match ref_processor s with Some _ => Some s | None => None end.
Proof. reflexivity. Qed.

Lemma adjust_marks_eq (s : state) : adjust_marks C s =
  Some (mk_state (heap s) (log s ++ [AdjustMarks]) (ref_processor s) (total_invocations s)
          (marking_stack s) (preserved_count_max s) (preserved_count s) (preserved_marks s)
          (map (adjust_preserved_mark C (heap s)) (firstn (Z.to_nat (preserved_count s)) (preserved_array s))
             ++ skipn (Z.to_nat (preserved_count s)) (preserved_array s))
          (map (adjust_preserved_mark C (heap s)) (preserved_overflow_stack s))
          (derived_pointer_table_active s)).
Proof. reflexivity. Qed.

Lemma restore_marks_eq (s : state) : restore_marks C s =
  Some (mk_state (restore_preserved C (heap s)
                    (firstn (Z.to_nat (preserved_count s)) (preserved_array s)
                     ++ preserved_overflow_stack s))
          (log s ++ [RestoreMarks]) (ref_processor s) (total_invocations s)
          (marking_stack s) (preserved_count_max s) (preserved_count s) (preserved_marks s)
          (preserved_array s) [] (derived_pointer_table_active s)).
Proof. reflexivity. Qed.

Lemma card_table_step_eq (s : state) : card_table_step C s =
  Some (mk_state (heap s)
          (log s ++ [if young_used C (heap s) =? 0 then ClearIntoYounger OldGen
                     else InvalidateOrClear OldGen])
          (ref_processor s) (total_invocations s)
          (marking_stack s) (preserved_count_max s) (preserved_count s) (preserved_marks s)
          (preserved_array s) (preserved_overflow_stack s) (derived_pointer_table_active s)).
Proof. unfold card_table_step. destruct (young_used C (heap s) =? 0); reflexivity. Qed.

(** A run of [preserve_mark] calls. *)
Lemma preserve_run recs : forall (s : state),
  run (map (fun '(o, m) => preserve_mark o m) recs) s =
  let '(cnt, arr, ov) := preserve_fold (preserved_count_max s) recs (preserved_count s)
                           (preserved_array s) (preserved_overflow_stack s) in
  Some (mk_state (heap s) (log s) (ref_processor s) (total_invocations s) (marking_stack s)
          (preserved_count_max s) cnt (preserved_marks s) arr ov (derived_pointer_table_active s)).
Proof.
  induction recs as [|[o m] recs IH]; intro s; cbn [map run preserve_fold].
  - destruct s; reflexivity.
  - unfold preserve_mark, update.
    destruct (preserved_count s <? preserved_count_max s); rewrite IH; reflexivity.
Qed.

(** Once the scratch block is full, every record goes to the overflow stack. *)
Lemma preserve_marks_overflow recs : forall (s : state),
  preserved_count_max s <= preserved_count s ->
  run (map (fun '(o, m) => preserve_mark o m) recs) s =
    Some (mk_state (heap s) (log s) (ref_processor s) (total_invocations s)
      (marking_stack s) (preserved_count_max s) (preserved_count s)
      (preserved_marks s) (preserved_array s)
      (rev recs ++ preserved_overflow_stack s) (derived_pointer_table_active s)).
Proof.
  induction recs as [|[o m] recs IH]; intros s Hle; cbn.
  - destruct s; reflexivity.
  - unfold preserve_mark, update.
    destruct (preserved_count s <? preserved_count_max s) eqn:E; [apply Z.ltb_lt in E; lia|].
    rewrite IH by (cbn; lia). cbn. rewrite <- app_assoc. reflexivity.
Qed.

Lemma marking_step_eq c f (s : state) : marking_step c f s =
  let '(h, ms, recs) := f (heap s) (marking_stack s) in
  let '(cnt, arr, ov) := preserve_fold (preserved_count_max s) recs (preserved_count s)
                           (preserved_array s) (preserved_overflow_stack s) in
  Some (mk_state h (log s ++ [c]) (ref_processor s) (total_invocations s) ms
          (preserved_count_max s) cnt (preserved_marks s) arr ov (derived_pointer_table_active s)).
Proof.
  unfold marking_step. destruct (f (heap s) (marking_stack s)) as [[h ms] recs].
  rewrite run_app_eq, preserve_run. proj.
  destruct (preserve_fold _ _ _ _ _) as [[cnt arr] ov]. reflexivity.
Qed.

(** Closed forms of the collector's commands, for stepping through
    [invoke_at_safepoint] one command at a time. *)
Lemma phase1_closed b (s : state) :
  mark_sweep_phase1 C b s =
  let '(h1, ms1, r1) := follow_roots C (heap s) (marking_stack s) in
  let '(h2, ms2, r2) := process_discovered_references C h1 ms1 in
  let '(cnt, arr, ov) := preserve_fold (preserved_count_max s) (r1 ++ r2) (preserved_count s)
                           (preserved_array s) (preserved_overflow_stack s) in
  if match ref_processor s, b, ms2 with
     | None, _, _ => true | Some _, Debug, _ :: _ => true | _, _, _ => false end
  then None
  else Some (mk_state h2 (log s ++ [Enter Phase1; VerifyClaimedMarksCleared; MarkRoots;
                        ProcessDiscoveredReferences; WeakOopsDo; ClassUnloading;
                        ReportObjectCount; Leave Phase1]) (ref_processor s) (total_invocations s)
          ms2 (preserved_count_max s) cnt (preserved_marks s) arr ov
          (derived_pointer_table_active s)).
Proof.
  destruct s as [h lg rpr inv ms pcm pc pm pa po dpt]. proj.
  unfold mark_sweep_phase1.
  rewrite run_step, emit_eq, run_step, emit_eq, run_step, marking_step_eq. proj.
  destruct (follow_roots C h ms) as [[h1 ms1] r1].
  destruct (process_discovered_references C h1 ms1) as [[h2 ms2] r2] eqn:F2.
  rewrite preserve_fold_app.
  destruct (preserve_fold pcm r1 pc pa po) as [[c1 a1] o1].
  destruct (preserve_fold pcm r2 c1 a1 o1) as [[c2 a2] o2] eqn:P2.
  rewrite run_step, use_ref_processor_eq. proj.
  destruct rpr as [rpr|]; [|reflexivity].
  rewrite run_step, marking_step_eq. proj. rewrite F2, P2.
  rewrite run_step, check_eq. proj.
  destruct b, ms2; cbn [negb]; try reflexivity;
  repeat (rewrite run_step, emit_eq; proj); rewrite run_nil, <- !app_assoc; reflexivity.
Qed.

Ltac go := repeat (rewrite run_step, ?emit_eq, ?heap_step_eq, ?adjust_marks_eq; proj);
           rewrite run_nil, <- !app_assoc; reflexivity.

Lemma phase2_closed (s : state) : mark_sweep_phase2 C s =
  Some (mk_state (prepare_for_compaction C (heap s))
          (log s ++ [Enter Phase2; PrepareForCompaction; Leave Phase2]) (ref_processor s)
          (total_invocations s)
          (marking_stack s) (preserved_count_max s) (preserved_count s) (preserved_marks s)
          (preserved_array s) (preserved_overflow_stack s) (derived_pointer_table_active s)).
Proof. unfold mark_sweep_phase2. go. Qed.

Lemma phase3_closed (s : state) : mark_sweep_phase3 C s =
  Some (mk_state (adjust_pointers C (heap s))
          (log s ++ [Enter Phase3; VerifyClaimedMarksCleared; AdjustRoots; AdjustWeakRoots;
                     AdjustMarks; AdjustGenerations; Leave Phase3]) (ref_processor s)
          (total_invocations s)
          (marking_stack s) (preserved_count_max s) (preserved_count s) (preserved_marks s)
          (map (adjust_preserved_mark C (heap s)) (firstn (Z.to_nat (preserved_count s)) (preserved_array s))
             ++ skipn (Z.to_nat (preserved_count s)) (preserved_array s))
          (map (adjust_preserved_mark C (heap s)) (preserved_overflow_stack s))
          (derived_pointer_table_active s)).
Proof. unfold mark_sweep_phase3. go. Qed.

Lemma phase4_closed (s : state) : mark_sweep_phase4 C s =
  Some (mk_state (compact C (heap s))
          (log s ++ [Enter Phase4; CompactGenerations; Leave Phase4]) (ref_processor s)
          (total_invocations s)
          (marking_stack s) (preserved_count_max s) (preserved_count s) (preserved_marks s)
          (preserved_array s) (preserved_overflow_stack s) (derived_pointer_table_active s)).
Proof. unfold mark_sweep_phase4. go. Qed.

(** The calls of a successful collection. *)
Definition invoke_calls (last : call) : list call :=
  [TraceHeapBeforeGC; SaveUsedRegions; GatherScratch;
   Enter Phase1; VerifyClaimedMarksCleared; MarkRoots; ProcessDiscoveredReferences;
   WeakOopsDo; ClassUnloading; ReportObjectCount; Leave Phase1;
   Enter Phase2; PrepareForCompaction; Leave Phase2;
   Enter Phase3; VerifyClaimedMarksCleared; AdjustRoots; AdjustWeakRoots; AdjustMarks;
   AdjustGenerations; Leave Phase3;
   Enter Phase4; CompactGenerations; Leave Phase4;
   RestoreMarks; SaveMarks; ReleaseScratch; FlushDedupRequests;
   last;
   PruneScavengableNmethods; UpdateCapacityAndUsed; RecordWholeHeapExamined;
   TraceHeapAfterGC].

Lemma checks_eq b f1 f2 f3 f4 (s : state) :
  run [check b f1; check b f2; check b f3; check b f4] s =
  if match b with Debug => f1 s && f2 s && f3 s && f4 s | Product => true end
  then Some s else None.
Proof.
  rewrite run_step, check_eq. destruct b; cbn beta iota; [|rewrite !run_step, !check_eq; reflexivity].
  destruct (f1 s); [|reflexivity]. rewrite run_step, check_eq.
  destruct (f2 s); [|reflexivity]. rewrite run_step, check_eq.
  destruct (f3 s); [|reflexivity]. rewrite run_step, check_eq.
  destruct (f4 s); reflexivity.
Qed.

Ltac step_all :=
  repeat (rewrite run_step;
          first [ rewrite emit_eq | rewrite set_derived_pointer_table_active_eq
                | rewrite phase3_closed | rewrite phase4_closed | rewrite restore_marks_eq
                | rewrite deallocate_stacks_eq | rewrite card_table_step_eq
                | rewrite set_ref_processor_eq ]; proj);
  rewrite run_nil, <- !app_assoc; reflexivity.

(** [invoke_at_safepoint] in closed form. *)
Lemma invoke_closed b rp cas (s : state) :
  invoke_at_safepoint C b rp cas s =
  let '(h1, ms1, r1) := follow_roots C (heap s) (marking_stack s) in
  let '(h2, ms2, r2) := process_discovered_references C h1 ms1 in
  let scratch := gather_scratch C (heap s) in
  let max := match scratch with
             | Some n => n * HeapWordSize / sizeof_PreservedMark | None => 0 end in
  let '(cnt, arr, ov) := preserve_fold max (r1 ++ r2) 0 [] (preserved_overflow_stack s) in
  let hp := prepare_for_compaction C h2 in
  let n := Z.to_nat cnt in
  let arr' := map (adjust_preserved_mark C hp) (firstn n arr) ++ skipn n arr in
  let ov' := map (adjust_preserved_mark C hp) ov in
  let hf := restore_preserved C (compact C (adjust_pointers C hp)) (firstn n arr' ++ ov') in
  if match b with
     | Debug => negb (is_at_safepoint C && implb (should_clear_all_soft_refs C (heap s)) cas &&
                      match ref_processor s, rp, ms2, derived_pointer_table_active s with
                      | None, Some _, [], true => true
                      | _, _, _, _ => false end)
     | Product => match rp with None => true | Some _ => false end
     end
  then None
  else Some (mk_state hf
    (log s ++ invoke_calls (if young_used C hf =? 0 then ClearIntoYounger OldGen
                            else InvalidateOrClear OldGen))
    None ((total_invocations s + 1) mod 2 ^ 32) [] max cnt scratch arr' [] false).
Proof.
  destruct s as [h lg rpr inv ms pcm pc pm pa po dpt]. proj.
  destruct (follow_roots C h ms) as [[h1 ms1] r1] eqn:F1.
  destruct (process_discovered_references C h1 ms1) as [[h2 ms2] r2] eqn:F2.
  cbv zeta.
  set (max := match gather_scratch C h with
              | Some n => n * HeapWordSize / sizeof_PreservedMark | None => 0 end).
  destruct (preserve_fold max (r1 ++ r2) 0 [] po) as [[cnt arr] ov] eqn:P.
  unfold invoke_at_safepoint.
  assert (Tail : forall s3 : state,
    run [mark_sweep_phase2 C; check b derived_pointer_table_active;
         set_derived_pointer_table_active false; mark_sweep_phase3 C; mark_sweep_phase4 C;
         restore_marks C; emit SaveMarks; deallocate_stacks; emit FlushDedupRequests;
         card_table_step C; emit PruneScavengableNmethods; set_ref_processor None;
         emit UpdateCapacityAndUsed; emit RecordWholeHeapExamined; emit TraceHeapAfterGC] s3 =
    if match b with Debug => derived_pointer_table_active s3 | Product => true end then
    let hp := prepare_for_compaction C (heap s3) in
    let n := Z.to_nat (preserved_count s3) in
    let arr' := map (adjust_preserved_mark C hp) (firstn n (preserved_array s3))
                ++ skipn n (preserved_array s3) in
    let ov' := map (adjust_preserved_mark C hp) (preserved_overflow_stack s3) in
    let hf := restore_preserved C (compact C (adjust_pointers C hp)) (firstn n arr' ++ ov') in
    Some (mk_state hf
      (log s3 ++ [Enter Phase2; PrepareForCompaction; Leave Phase2;
        Enter Phase3; VerifyClaimedMarksCleared; AdjustRoots; AdjustWeakRoots; AdjustMarks;
        AdjustGenerations; Leave Phase3;
        Enter Phase4; CompactGenerations; Leave Phase4;
        RestoreMarks; SaveMarks; ReleaseScratch; FlushDedupRequests;
        if young_used C hf =? 0 then ClearIntoYounger OldGen else InvalidateOrClear OldGen;
        PruneScavengableNmethods; UpdateCapacityAndUsed; RecordWholeHeapExamined;
        TraceHeapAfterGC])
      None (total_invocations s3) [] (preserved_count_max s3) (preserved_count s3)
      (preserved_marks s3) arr' [] false)
    else None).
  { intro s3. rewrite run_step, phase2_closed, run_step, check_eq. proj.
    destruct (match b with Debug => _ | Product => true end); [|reflexivity].
    step_all. }
  assert (Head : forall b0 : build,
    run [set_ref_processor rp; emit TraceHeapBeforeGC; incr_invocations; emit SaveUsedRegions;
         allocate_stacks C; mark_sweep_phase1 C b0]
      (mk_state h lg rpr inv ms pcm pc pm pa po dpt) =
    if match rp, b0, ms2 with
       | None, _, _ => true | Some _, Debug, _ :: _ => true | _, _, _ => false end
    then None
    else Some (mk_state h2 (lg ++ [TraceHeapBeforeGC; SaveUsedRegions; GatherScratch;
                 Enter Phase1; VerifyClaimedMarksCleared; MarkRoots;
                 ProcessDiscoveredReferences; WeakOopsDo; ClassUnloading;
                 ReportObjectCount; Leave Phase1]) rp ((inv + 1) mod 2 ^ 32) ms2 max cnt
                 (gather_scratch C h) arr ov dpt)).
  { intro b0. rewrite run_step, set_ref_processor_eq. proj.
    do 4 (rewrite run_step; first [rewrite emit_eq | rewrite incr_invocations_eq
                                  | rewrite allocate_stacks_eq]; proj).
    rewrite run_step, phase1_closed. proj.
    rewrite F1, F2. fold max. rewrite P.
    destruct rp, b0, ms2; try reflexivity; rewrite run_nil, <- !app_assoc; reflexivity. }
  change (invoke_calls ?x) with
    ([TraceHeapBeforeGC; SaveUsedRegions; GatherScratch;
      Enter Phase1; VerifyClaimedMarksCleared; MarkRoots; ProcessDiscoveredReferences;
      WeakOopsDo; ClassUnloading; ReportObjectCount; Leave Phase1] ++
     [Enter Phase2; PrepareForCompaction; Leave Phase2;
      Enter Phase3; VerifyClaimedMarksCleared; AdjustRoots; AdjustWeakRoots; AdjustMarks;
      AdjustGenerations; Leave Phase3;
      Enter Phase4; CompactGenerations; Leave Phase4;
      RestoreMarks; SaveMarks; ReleaseScratch; FlushDedupRequests;
      x;
      PruneScavengableNmethods; UpdateCapacityAndUsed; RecordWholeHeapExamined;
      TraceHeapAfterGC]).
  change (run (?c1 :: ?c2 :: ?c3 :: ?c4 :: ?a1 :: ?a2 :: ?a3 :: ?a4 :: ?a5 :: ?a6 :: ?rest)
            (mk_state h lg rpr inv ms pcm pc pm pa po dpt))
    with (run ([c1; c2; c3; c4] ++ [a1; a2; a3; a4; a5; a6] ++ rest)
            (mk_state h lg rpr inv ms pcm pc pm pa po dpt)).
  rewrite run_app_eq, checks_eq. proj.
  destruct b; cbn beta iota.
  - destruct (is_at_safepoint C); [|reflexivity].
    destruct (implb (should_clear_all_soft_refs C h) cas); [|reflexivity].
    destruct rpr as [rpr|]; [reflexivity|].
    destruct rp as [rp|]; [|reflexivity]. cbn [andb].
    rewrite run_app_eq, Head. destruct ms2; [|reflexivity].
    rewrite Tail. proj. destruct dpt; [|reflexivity]. rewrite <- app_assoc. reflexivity.
  - rewrite run_app_eq, Head. destruct rp as [rp|]; [|reflexivity].
    rewrite Tail. proj. rewrite <- app_assoc. reflexivity.
Qed.

(** The calls a successful collection makes, and the heap it leaves: the
    compacted heap with the preserved headers written back. *)
Lemma invoke_log b rp cas s s' :
  invoke_at_safepoint C b rp cas s = Some s' ->
  (exists h recs, heap s' = restore_preserved C (compact C h) recs) /\
  log s' = log s ++ invoke_calls (if young_used C (heap s') =? 0 then ClearIntoYounger OldGen
                                  else InvalidateOrClear OldGen).
Proof.
  rewrite invoke_closed.
  destruct (follow_roots C (heap s) (marking_stack s)) as [[h1 ms1] r1].
  destruct (process_discovered_references C h1 ms1) as [[h2 ms2] r2].
  cbv zeta. destruct (preserve_fold _ (r1 ++ r2) 0 [] _) as [[cnt arr] ov].
  destruct (match b with Debug => _ | Product => _ end); [discriminate|].
  intros [= <-]. proj. split; [eauto | reflexivity].
Qed.

End Driver.

End GenMarkSweepFacts.

(** ** Claims about the task-queue entry encoding *)

Import TaskQueueEntry TaskQueueEntryFacts TaskQueueEntryProofs.

(** C2: for an array address below 2^49 with its two low bits clear (every
    object and slot address is at least 4-byte aligned), a chunk in [1, 1024)
    and a pow in [0, 32), the entry built from [(array, chunk, pow)] decodes to
    the same triple and is an array slice; an entry built from a plain
    reference in the same address range ([oop], [oop*] or [narrowOop*])
    decodes to the same reference and is not an array slice.  This holds in
    debug builds (no assertion fires) and in product builds alike. *)
Theorem entry_round_trip (b : build) (o c p : Z) :
  0 <= o < 2 ^ 49 -> Z.land o 3 = 0 ->
  (1 <= c < 1024 -> 0 <= p < 32 ->
   exists v, new_chunked b o c p = Some v /\ to_oop b v = Some o /\
     TaskQueueEntry.chunk v = c /\ TaskQueueEntry.pow v = p /\ is_array_slice v = true) /\
  (exists v, new_oop b o = Some v /\ to_oop b v = Some o /\ to_oop_ptr b v = Some o /\
     is_array_slice v = false /\ is_oop_ptr v = true) /\
  (exists v, new_narrow_oop b o = Some v /\ to_narrow_oop_ptr b v = Some o /\
     is_array_slice v = false /\ is_narrow_oop_ptr v = true).
Proof.
  intros Ho Ha. split; [|split].
  - intros Hc Hp. rewrite new_chunked_in_range by assumption.
    eexists. split; [reflexivity|].
    unfold to_oop, decode, TaskQueueEntry.chunk, TaskQueueEntry.pow, is_array_slice.
    rewrite chunked_has_oop_tag, hs_assert_true, chunked_decode_oop,
      chunked_decode_chunk, chunked_decode_pow, chunked_is_chunked by (auto; lia).
    auto.
  - unfold new_oop. rewrite encode_oop_small by (unfold OopTag; lia).
    unfold OopTag. rewrite decode_plain by (auto; lia). unfold eqb_opt.
    rewrite Z.eqb_refl, hs_assert_true, plain_not_chunked, hs_assert_true by (auto; lia).
    eexists. split; [reflexivity|].
    unfold to_oop, to_oop_ptr, is_array_slice, is_oop_ptr, OopTag.
    rewrite decode_plain, plain_not_chunked by (auto; lia).
    change NarrowOopTag with TagMask. rewrite plain_tag by (auto; lia). auto.
  - unfold new_narrow_oop. rewrite encode_oop_small by (unfold NarrowOopTag; lia).
    unfold NarrowOopTag. rewrite decode_plain by (auto; lia). unfold eqb_opt.
    rewrite Z.eqb_refl, hs_assert_true, plain_not_chunked, hs_assert_true by (auto; lia).
    eexists. split; [reflexivity|].
    unfold to_narrow_oop_ptr, is_array_slice, is_narrow_oop_ptr, NarrowOopTag.
    rewrite decode_plain, plain_not_chunked by (auto; lia).
    change 1 with TagMask at 2. rewrite plain_tag by (auto; lia). auto.
Qed.

Lemma entry_round_trip_witness :
  (0 <= 4096 < 2 ^ 49 /\ Z.land 4096 3 = 0 /\ 1 <= 3 < 1024 /\ 0 <= 7 < 32) /\
  exists v, new_chunked Debug 4096 3 7 = Some v /\ to_oop Debug v = Some 4096 /\
    TaskQueueEntry.chunk v = 3 /\ TaskQueueEntry.pow v = 7 /\ is_array_slice v = true.
Proof.
  split; [repeat split; (lia || reflexivity)|].
  apply (proj1 (entry_round_trip Debug 4096 3 7 ltac:(lia) ltac:(reflexivity))); lia.
Defined.

(** C8 as stated fails in product builds: the constructor's checks are
    assertions, compiled out there, and a pow of 32 is stored as a set chunk
    bit, reading back as pow 0. *)
Lemma entry_wide_pow_stored :
  exists v, new_chunked Product 4096 1 32 = Some v /\ TaskQueueEntry.pow v = 0 /\
    TaskQueueEntry.pow v <> 32.
Proof. eexists. split; [reflexivity|]. split; [reflexivity|discriminate]. Qed.

(** C8 (amended): in a debug build, a chunked entry is stored only when its
    decoded oop, chunk and pow equal the arguments, so a chunk outside the
    10-bit field or a pow outside the 5-bit field aborts; in a product build
    the constructor performs no check and stores the (possibly wrapped)
    encoding [oop | chunk << 54 | pow << 49]. *)
Theorem entry_overflow_debug_abort :
  (forall o c p v, new_chunked Debug o c p = Some v ->
     to_oop Debug v = Some o /\ TaskQueueEntry.chunk v = c /\ TaskQueueEntry.pow v = p /\
     is_array_slice v = true) /\
  (forall o c p, ~ (0 <= c < 1024 /\ 0 <= p < 32) -> new_chunked Debug o c p = None) /\
  (forall o c p, new_chunked Product o c p =
     Some (Z.lor (Z.lor (encode_oop o OopTag) (encode_chunk c)) (encode_pow p))).
Proof.
  split; [|split].
  - intros o c p v H. apply new_chunked_debug_sound in H. exact H.
  - intros o c p Hr. destruct (new_chunked Debug o c p) as [v|] eqn:H; [|reflexivity].
    apply new_chunked_debug_sound in H as (_ & Hc & Hp & _).
    pose proof (decode_chunk_range v). pose proof (decode_pow_range v). lia.
  - intros o c p. reflexivity.
Qed.

Lemma entry_overflow_debug_abort_witness :
  ~ (0 <= 1 < 1024 /\ 0 <= 32 < 32) /\ new_chunked Debug 4096 1 32 = None.
Proof.
  split; [lia|]. apply (proj1 (proj2 entry_overflow_debug_abort)). lia.
Defined.

(** ** Claims about the array slicer *)

Import ObjArrayProcessor ObjArrayFacts.

(** C1: for every positive stride and every array length [len] (an int, so
    below 2^31; arrays above the slicing threshold are among them), the ranges
    scanned for the array - the irregular tail scanned by [process_obj] and the
    ranges scanned by [process_slice] for every pushed entry, after its own
    splitting - partition [[0, len)]: every index in it is covered by exactly
    one scanned range, every index outside by none. *)
Theorem scanned_ranges_partition (b : build) (stride len : Z) :
  1 <= stride -> 1 <= len <= 2 ^ 31 - 1 ->
  exists rs, scanned_ranges stride len b = Some rs /\
    (forall i, 0 <= i < len -> cover i rs = 1) /\
    (forall i, i < 0 \/ len <= i -> cover i rs = 0).
Proof.
  intros Hs Hl. unfold scanned_ranges.
  destruct (process_obj_spec stride len Hs b Hl) as (evs & -> & Hall & Hcov).
  destruct (concat_opt_spec (drain stride len 32 b) evs) as (rs & Hrs & Hcrs).
  - intros e Hin.
    destruct (Hall e Hin) as [->|[(c & p & -> & H1 & H2 & H3 & H4)|(f & t & ->)]].
    + exists []. split; reflexivity.
    + destruct (drain_spec stride len Hs b 32 c p) as (r & Hr & Hcr); try lia.
      exists r. split; [exact Hr|]. intros i. rewrite Hcr. simpl. lia.
    + exists [(f, t)]. split; reflexivity.
  - exists rs. split; [exact Hrs|]. split; intros i Hi; rewrite Hcrs, Hcov; unfold ind.
    + destruct (Z.leb_spec 0 i), (Z.ltb_spec i len); simpl; lia.
    + destruct (Z.leb_spec 0 i), (Z.ltb_spec i len); simpl; lia.
Qed.

Lemma scanned_ranges_partition_witness :
  (1 <= 16 /\ 1 <= 1000 <= 2 ^ 31 - 1) /\
  exists rs, scanned_ranges 16 1000 Debug = Some rs /\
    (forall i, 0 <= i < 1000 -> cover i rs = 1) /\
    (forall i, i < 0 \/ 1000 <= i -> cover i rs = 0).
Proof.
  split; [split; lia|]. apply (scanned_ranges_partition Debug 16 1000); lia.
Defined.

(** C3: when the covering power of [process_obj] is 31 (the array is longer
    than 2^30), [process_obj] pre-splits exactly once: after
    [scan_objArray_start] it pushes the single entry (chunk 1, pow 30), then
    runs the halving loop from chunk 2, pow 30 with [last_idx = 2^30] and scans
    the remaining tail; every chunk number pushed for the array, by
    [process_obj] or by [process_slice] on a queued entry, lies in [1, 1024). *)
Theorem overflow_presplit (b : build) (stride len : Z) :
  1 <= stride -> 2 ^ 30 < len <= 2 ^ 31 - 1 ->
  covering_bits len = 31 /\
  (exists evs last_idx,
     obj_loop stride len (Z.to_nat 30) 2 30 (2 ^ 30) = (evs, last_idx) /\
     process_obj stride len b = Some (ScanStart :: Push 1 30 :: evs ++ [Scan last_idx len])) /\
  (forall c p, queued stride len b c p -> 1 <= c < 1024).
Proof.
  intros Hs Hl.
  assert (Hbits : covering_bits len = 31).
  { unfold covering_bits, log2i_graceful.
    destruct (Z.leb_spec len 0); [lia|].
    assert (Hlog : Z.log2 len = 30).
    { apply Z.log2_unique; lia. }
    rewrite Hlog, shiftl_pow. destruct (Z.eqb_spec len (2 ^ 30)); lia. }
  split; [exact Hbits|]. split.
  - destruct (obj_loop stride len (Z.to_nat 30) 2 30 (2 ^ 30)) as [evs li] eqn:Hrun.
    destruct (obj_loop_spec stride len Hs _ _ _ _ _ _ Hrun) as (_ & Hli & _); [lia|lia|lia|].
    exists evs, li. split; [reflexivity|].
    unfold process_obj. fold (covering_bits len). rewrite Hbits.
    change (31 >=? 31) with true. rewrite Z.eqb_refl, hs_assert_true.
    change (31 - 1) with 30. rewrite shiftl_pow. cbn beta iota. rewrite Hrun.
    destruct (Z.ltb_spec li len); [reflexivity|lia].
  - intros c p Hq. destruct (queued_full stride len Hs b c p ltac:(lia) Hq). lia.
Qed.

Lemma overflow_presplit_witness :
  (1 <= 512 /\ 2 ^ 30 < 2 ^ 30 + 5 <= 2 ^ 31 - 1) /\
  covering_bits (2 ^ 30 + 5) = 31 /\
  (exists evs last_idx,
     obj_loop 512 (2 ^ 30 + 5) (Z.to_nat 30) 2 30 (2 ^ 30) = (evs, last_idx) /\
     process_obj 512 (2 ^ 30 + 5) Debug =
       Some (ScanStart :: Push 1 30 :: evs ++ [Scan last_idx (2 ^ 30 + 5)])) /\
  (forall c p, queued 512 (2 ^ 30 + 5) Debug c p -> 1 <= c < 1024).
Proof.
  split; [split; lia|]. apply (overflow_presplit Debug 512 (2 ^ 30 + 5)); lia.
Defined.

(** C9: every entry that reaches the queue, pushed by [process_obj] or by
    [process_slice], is a full chunk: [[(chunk-1)*2^pow, chunk*2^pow)] lies
    inside [[0, len)].  When it is popped, [process_slice] passes its range
    assertions and scans a range with [0 <= from < len] and [0 < to <= len];
    in a product build its result does not depend on the array length. *)
Theorem queued_chunks_within_array (b : build) (stride len c p : Z) :
  1 <= stride -> 1 <= len <= 2 ^ 31 - 1 -> queued stride len b c p ->
  0 <= (c - 1) * 2 ^ p /\ c * 2 ^ p <= len /\
  (exists evs from to,
     process_slice stride len b c p = Some (evs ++ [Scan from to]) /\
     0 <= from < len /\ 0 < to <= len) /\
  (forall len', process_slice stride len' Product c p = process_slice stride len Product c p).
Proof.
  intros Hs Hl Hq.
  destruct (queued_full stride len Hs b c p Hl Hq) as (H1 & H2 & H3 & H4).
  split; [exact H3|]. split; [exact H4|]. split.
  - destruct (process_slice_spec stride len Hs b c p H1 ltac:(lia) H4) as
      (evs & from & to & Hsl & _ & _ & _ & Hf & Ht & _).
    exists evs, from, to. auto.
  - intros len'. apply process_slice_product_len.
Qed.

Lemma queued_chunks_within_array_witness :
  (1 <= 16 /\ 1 <= 1000 <= 2 ^ 31 - 1 /\ queued 16 1000 Debug 3 8) /\
  0 <= (3 - 1) * 2 ^ 8 /\ 3 * 2 ^ 8 <= 1000 /\
  (exists evs from to,
     process_slice 16 1000 Debug 3 8 = Some (evs ++ [Scan from to]) /\
     0 <= from < 1000 /\ 0 < to <= 1000) /\
  (forall len', process_slice 16 len' Product 3 8 = process_slice 16 1000 Product 3 8).
Proof.
  assert (Hq : queued 16 1000 Debug 3 8).
  { eapply queued_obj; [vm_compute; reflexivity | simpl; tauto]. }
  split; [split; [lia | split; [lia | exact Hq]]|].
  apply (queued_chunks_within_array Debug 16 1000 3 8); [lia | lia | exact Hq].
Defined.

(** ** Claims about [MarkSweep::adjust_pointer] *)

Import AdjustPointer.

Section AdjustClaims.
Context {T : Type} `{HeapOop T}.
Variable is_in is_marked : Z -> bool.
Variable forwardee : Z -> Z.
Variable is_object_aligned : Z -> bool.

(** C5: [adjust_pointer] leaves a null slot alone; for a non-null slot whose
    referent's header is marked it stores the forwardee, and otherwise
    leaves the slot alone (the debug-only assertions on the referent and the
    forwardee hold, or the build is a product build); it never writes a
    header and never writes any slot other than [p]. *)
Theorem adjust_pointer_slot_update (b : build) (h : heap T) (p : Z) :
  (oop_is_null (slot h p) = true ->
     adjust_pointer is_in is_marked forwardee is_object_aligned b h p = Some h) /\
  (forall obj, oop_is_null (slot h p) = false -> decode_not_null (slot h p) = obj ->
     (b = Product \/ is_in obj = true) ->
     (is_marked (mark h obj) = false ->
        adjust_pointer is_in is_marked forwardee is_object_aligned b h p = Some h) /\
     (is_marked (mark h obj) = true ->
        (b = Product \/ (forwardee obj <> 0 /\ is_object_aligned (forwardee obj) = true)) ->
        adjust_pointer is_in is_marked forwardee is_object_aligned b h p =
          Some (store h p (encode_not_null (forwardee obj))))) /\
  (forall h', adjust_pointer is_in is_marked forwardee is_object_aligned b h p = Some h' ->
     mark h' = mark h /\ forall q, q <> p -> slot h' q = slot h q).
Proof.
  unfold adjust_pointer. split; [|split].
  - intros ->; reflexivity.
  - intros obj Hn <- Hin. split.
    + intros Hm. rewrite Hn; cbn.
      destruct Hin as [-> | ->]; [|rewrite hs_assert_true]; rewrite Hm; reflexivity.
    + intros Hm Hf. rewrite Hn; cbn.
      destruct Hin as [-> | ->]; [cbn; rewrite Hm; reflexivity|]. rewrite hs_assert_true, Hm.
      destruct Hf as [-> | [Hf Ha]]; [reflexivity|].
      apply Z.eqb_neq in Hf. rewrite Hf, Ha. cbn [negb]. rewrite !hs_assert_true. reflexivity.
  - intros h' Hs. split.
    + destruct (oop_is_null (slot h p)); cbn in Hs; [congruence|].
      destruct (hs_assert _ _); [|discriminate].
      destruct (is_marked _); [|congruence].
      destruct (hs_assert _ _); [|discriminate].
      destruct (hs_assert _ _); [|discriminate].
      injection Hs as <-. reflexivity.
    + intros q Hq.
      destruct (oop_is_null (slot h p)); cbn in Hs; [congruence|].
      destruct (hs_assert _ _); [|discriminate].
      destruct (is_marked _); [|congruence].
      destruct (hs_assert _ _); [|discriminate].
      destruct (hs_assert _ _); [|discriminate].
      injection Hs as <-. cbn. apply Z.eqb_neq in Hq. rewrite Hq. reflexivity.
Qed.

End AdjustClaims.

(** A slot at address 8 refers to the object at 64, whose header is marked
    and which is forwarded to 32: the slot is rewritten to 32. *)
Lemma adjust_pointer_slot_update_witness :
  adjust_pointer (fun _ => true) (fun m => Z.land m 3 =? 3) (fun o => o - 32)
    (fun a => a mod 8 =? 0) Debug
    (mk_heap (fun q => if q =? 8 then 64 else 0) (fun _ => 3)) 8 =
  Some (store (mk_heap (fun q => if q =? 8 then 64 else 0) (fun _ => 3)) 8 32).
Proof.
  destruct (adjust_pointer_slot_update (fun _ => true) (fun m => Z.land m 3 =? 3)
              (fun o => o - 32) (fun a => a mod 8 =? 0) Debug
              (mk_heap (fun q => if q =? 8 then 64 else 0) (fun _ => 3)) 8)
    as [_ [Hnn _]].
  destruct (Hnn 64 eq_refl eq_refl (or_intror eq_refl)) as [_ Hm].
  apply Hm; [reflexivity | right; split; [discriminate | reflexivity]].
Defined.

(** ** Claims about [GenMarkSweep::invoke_at_safepoint] *)

Import GenMarkSweep GenMarkSweepFacts.

(** C4: after Move, a successful collection makes exactly one card-table
    call: [clear_into_younger(old_gen)] when the young generation's [used()]
    on the final heap (compacted, with the preserved headers restored) is
    zero, [invalidate_or_clear(old_gen)] otherwise; [save_used_regions] was
    called before Mark began. *)
Theorem card_table_after_move {H : Type} (C : collaborators H) b rp cas s s' :
  invoke_at_safepoint C b rp cas s = Some s' ->
  exists pre post,
    log s' = log s ++ pre ++
      [if young_used C (heap s') =? 0 then ClearIntoYounger OldGen else InvalidateOrClear OldGen]
      ++ post /\
    (exists p1 p2, pre = p1 ++ [SaveUsedRegions] ++ p2 /\
                   In (Enter Phase1) p2 /\ In (Leave Phase4) p2) /\
    forallb (fun c => negb (is_card_call c)) (pre ++ post) = true /\
    (exists h recs, heap s' = restore_preserved C (compact C h) recs).
Proof.
  intro Hs. apply invoke_log in Hs as [Hh Hs]. rewrite Hs. unfold invoke_calls.
  eexists [_; _; _; _; _; _; _; _; _; _; _; _; _; _; _; _; _; _; _; _; _; _; _; _; _; _; _; _].
  eexists [_; _; _; _].
  split; [reflexivity|].
  split; [|split; [reflexivity | exact Hh]].
  exists [TraceHeapBeforeGC]. eexists. split; [reflexivity|]. cbn; tauto.
Qed.

(** Scenario: a young generation of occupancy 5 is fully evacuated, and the
    card table is cleared into the old generation. *)
Lemma card_table_after_move_witness :
  exists s', invoke_at_safepoint evacuating_heap Debug (Some 1) false (idle_state 5) = Some s' /\
  young_used evacuating_heap (heap s') = 0 /\
  exists pre post,
    log s' = log (idle_state 5) ++ pre ++
      [if young_used evacuating_heap (heap s') =? 0
       then ClearIntoYounger OldGen else InvalidateOrClear OldGen] ++ post /\
    (exists p1 p2, pre = p1 ++ [SaveUsedRegions] ++ p2 /\
                   In (Enter Phase1) p2 /\ In (Leave Phase4) p2) /\
    forallb (fun c => negb (is_card_call c)) (pre ++ post) = true /\
    (exists h recs, heap s' = restore_preserved evacuating_heap (compact evacuating_heap h) recs).
Proof.
  destruct (invoke_at_safepoint evacuating_heap Debug (Some 1) false (idle_state 5)) as [s'|] eqn:E;
    [|vm_compute in E; discriminate].
  exists s'. split; [reflexivity|]. split.
  - pose proof E as E'. vm_compute in E'. injection E' as <-. reflexivity.
  - exact (card_table_after_move evacuating_heap Debug (Some 1) false (idle_state 5) s' E).
Defined.

(** C6: a successful collection enters and leaves the four phases once each,
    in the order Mark, Plan, Adjust, Move, each returning before the next
    is entered.  [restore_marks] is called exactly once, after the return of
    Move, and [deallocate_stacks] (which releases the scratch block) exactly
    once, after [restore_marks]; the final heap is the compacted heap with
    the preserved headers written back. *)
Theorem phases_in_order {H : Type} (C : collaborators H) b rp cas s s' :
  invoke_at_safepoint C b rp cas s = Some s' ->
  exists new, log s' = log s ++ new /\
    filter is_phase_marker new =
      [Enter Phase1; Leave Phase1; Enter Phase2; Leave Phase2;
       Enter Phase3; Leave Phase3; Enter Phase4; Leave Phase4] /\
    (exists l1 l2 l3 l4,
      new = l1 ++ [Leave Phase4] ++ l2 ++ [RestoreMarks] ++ l3 ++ [ReleaseScratch] ++ l4 /\
      filter is_phase_marker (l2 ++ l3 ++ l4) = [] /\
      ~ In RestoreMarks (l1 ++ l2 ++ l3 ++ l4) /\
      ~ In ReleaseScratch (l1 ++ l2 ++ l3 ++ l4)) /\
    (exists h recs, heap s' = restore_preserved C (compact C h) recs).
Proof.
  intro Hs. apply invoke_log in Hs as [Hh Hs]. rewrite Hs. unfold invoke_calls.
  eexists; split; [reflexivity|].
  destruct (young_used C (heap s') =? 0); (split; [reflexivity|]); (split; [|exact Hh]).
  all: exists [TraceHeapBeforeGC; SaveUsedRegions; GatherScratch;
       Enter Phase1; VerifyClaimedMarksCleared; MarkRoots; ProcessDiscoveredReferences;
       WeakOopsDo; ClassUnloading; ReportObjectCount; Leave Phase1;
       Enter Phase2; PrepareForCompaction; Leave Phase2;
       Enter Phase3; VerifyClaimedMarksCleared; AdjustRoots; AdjustWeakRoots; AdjustMarks;
       AdjustGenerations; Leave Phase3; Enter Phase4; CompactGenerations], [], [SaveMarks].
  all: eexists; split; [reflexivity|].
  all: split; [reflexivity|].
  all: split; intro Hin; cbn in Hin; intuition discriminate.
Qed.

Lemma phases_in_order_witness :
  exists s', invoke_at_safepoint evacuating_heap Product (Some 1) false (idle_state 5) = Some s' /\
  exists new, log s' = log (idle_state 5) ++ new /\
    filter is_phase_marker new =
      [Enter Phase1; Leave Phase1; Enter Phase2; Leave Phase2;
       Enter Phase3; Leave Phase3; Enter Phase4; Leave Phase4] /\
    (exists l1 l2 l3 l4,
      new = l1 ++ [Leave Phase4] ++ l2 ++ [RestoreMarks] ++ l3 ++ [ReleaseScratch] ++ l4 /\
      filter is_phase_marker (l2 ++ l3 ++ l4) = [] /\
      ~ In RestoreMarks (l1 ++ l2 ++ l3 ++ l4) /\
      ~ In ReleaseScratch (l1 ++ l2 ++ l3 ++ l4)) /\
    (exists h recs, heap s' = restore_preserved evacuating_heap (compact evacuating_heap h) recs).
Proof.
  destruct (invoke_at_safepoint evacuating_heap Product (Some 1) false (idle_state 5)) as [s'|] eqn:E;
    [|vm_compute in E; discriminate].
  exists s'. split; [reflexivity|].
  exact (phases_in_order evacuating_heap Product (Some 1) false (idle_state 5) s' E).
Defined.

(** C7, counterexample: root processing leaves work on the marking stack
    and reference processing drains it; phase 1 of a debug build completes.
    And in a product build, phase 1 completes with work left on the stack. *)
Lemma root_stack_unchecked :
  snd (fst (follow_roots roots_leave_work tt (marking_stack (collecting_state tt)))) <> [] /\
  (exists s', mark_sweep_phase1 roots_leave_work Debug (collecting_state tt) = Some s') /\
  (exists s', mark_sweep_phase1 marking_leaves_work Product (collecting_state tt) = Some s' /\
              marking_stack s' <> []).
Proof.
  split; [discriminate|]. split.
  - destruct (mark_sweep_phase1 roots_leave_work Debug (collecting_state tt)) eqn:E;
      [eauto | vm_compute in E; discriminate].
  - destruct (mark_sweep_phase1 marking_leaves_work Product (collecting_state tt)) as [s'|] eqn:E;
      [|vm_compute in E; discriminate].
    exists s'. split; [reflexivity|].
    vm_compute in E. injection E as <-. discriminate.
Qed.

(** C7, amended: phase 1 checks the marking stack once, after root
    processing and reference processing and before weak processing, and
    only in a debug build, where a non-empty stack aborts.  (Phase 1 also
    dereferences the installed reference processor before reference
    processing, so without one it crashes in every build.) *)
Theorem phase1_stack_check {H : Type} (C : collaborators H) b s :
  let '(h1, ms1, _) := follow_roots C (heap s) (marking_stack s) in
  let '(h2, ms2, _) := process_discovered_references C h1 ms1 in
  (mark_sweep_phase1 C b s = None <-> ref_processor s = None \/ (b = Debug /\ ms2 <> [])) /\
  (forall s', mark_sweep_phase1 C b s = Some s' ->
     log s' = log s ++ [Enter Phase1; VerifyClaimedMarksCleared; MarkRoots;
                        ProcessDiscoveredReferences; WeakOopsDo; ClassUnloading;
                        ReportObjectCount; Leave Phase1] /\
     heap s' = h2 /\ marking_stack s' = ms2).
Proof.
  rewrite phase1_closed.
  destruct (follow_roots C (heap s) (marking_stack s)) as [[h1 ms1] r1].
  destruct (process_discovered_references C h1 ms1) as [[h2 ms2] r2].
  destruct (preserve_fold _ _ _ _ _) as [[cnt arr] ov].
  destruct (ref_processor s), b, ms2 as [|m ms2]; cbn; split; try (intuition congruence; fail);
    intros s' Hs'; try discriminate; injection Hs' as <-; cbn; auto.
Qed.

(** Marking that leaves work behind aborts a debug build in phase 1. *)
Lemma phase1_stack_check_witness :
  mark_sweep_phase1 marking_leaves_work Debug (collecting_state tt) = None.
Proof.
  pose proof (phase1_stack_check marking_leaves_work Debug (collecting_state tt)) as P.
  cbn in P. apply (proj1 P). right. split; [reflexivity | discriminate].
Defined.

(** C10: without a scratch block [allocate_stacks] completes, records
    nothing but the [gather_scratch] call, and sets the scratch capacity to
    zero; every mark preserved afterwards goes to the overflow stack. *)
Theorem no_scratch_fallback {H : Type} (C : collaborators H) s :
  gather_scratch C (heap s) = None ->
  exists s1, allocate_stacks C s = Some s1 /\
    preserved_count_max s1 = 0 /\ preserved_count s1 = 0 /\ preserved_marks s1 = None /\
    log s1 = log s ++ [GatherScratch] /\ heap s1 = heap s /\
    forall recs, exists s2,
      run (map (fun '(o, m) => preserve_mark o m) recs) s1 = Some s2 /\
      preserved_array s2 = preserved_array s1 /\
      preserved_overflow_stack s2 = rev recs ++ preserved_overflow_stack s1.
Proof.
  intro Hn. unfold allocate_stacks, emit, update. rewrite Hn.
  eexists; split; [reflexivity|]. cbn. repeat split.
  intro recs. rewrite preserve_marks_overflow by (cbn; lia).
  eexists; split; [reflexivity|]. split; reflexivity.
Qed.

Lemma no_scratch_fallback_witness :
  gather_scratch evacuating_heap 5 = None /\
  exists s1, allocate_stacks evacuating_heap (idle_state 5) = Some s1 /\
    preserved_count_max s1 = 0 /\ preserved_count s1 = 0 /\ preserved_marks s1 = None /\
    log s1 = log (idle_state 5) ++ [GatherScratch] /\ heap s1 = heap (idle_state 5) /\
    forall recs, exists s2,
      run (map (fun '(o, m) => preserve_mark o m) recs) s1 = Some s2 /\
      preserved_array s2 = preserved_array s1 /\
      preserved_overflow_stack s2 = rev recs ++ preserved_overflow_stack s1.
Proof.
  split; [reflexivity|].
  apply (no_scratch_fallback evacuating_heap (idle_state 5)). reflexivity.
Defined.

(** ** Further properties of the entry encoding *)

Import TaskQueueEntry TaskQueueEntryFacts TaskQueueEntryProofs.

(** The debug assertions of [G1TaskQueueEntry(oop)] / [(oop* )] and of
    [G1TaskQueueEntry(narrowOop* )] accept exactly the 4-byte aligned
    addresses below [2^49]. *)
Theorem plain_entries_debug_accept (o : Z) :
  (new_oop Debug o <> None <-> 0 <= o < 2 ^ 49 /\ Z.land o 3 = 0) /\
  (new_narrow_oop Debug o <> None <-> 0 <= o < 2 ^ 49 /\ Z.land o 3 = 0).
Proof.
  split; [unfold new_oop; apply (plain_debug_iff OopTag) | unfold new_narrow_oop; apply (plain_debug_iff NarrowOopTag)];
  unfold OopTag, NarrowOopTag; lia.
Qed.

(** The debug assertions of [G1TaskQueueEntry(oop, chunk, pow)] accept
    exactly an aligned address below [2^49], a chunk in [[0, 1024)] and a pow
    in [[0, 32)], not both zero: chunk 0 passes when pow is non-zero. *)
Theorem chunked_entry_debug_accepts (o c p : Z) :
  new_chunked Debug o c p <> None <->
  0 <= o < 2 ^ 49 /\ Z.land o 3 = 0 /\ 0 <= c < 1024 /\ 0 <= p < 32 /\ (c <> 0 \/ p <> 0).
Proof.
  split.
  - destruct (new_chunked Debug o c p) as [v|] eqn:Hv; [intros _|congruence].
    destruct (new_chunked_debug_sound _ _ _ _ Hv) as (Hd & Hc & Hp & Hch).
    assert (Ho : 0 <= o < 2 ^ 49 /\ Z.land o 3 = 0).
    { apply (decode_eq_range OopTag v). rewrite Hd. cbn. rewrite Z.eqb_refl. reflexivity. }
    pose proof (decode_chunk_range v). pose proof (decode_pow_range v).
    destruct Ho as [Ho Hal].
    assert (Hc' : 0 <= c < 1024) by lia. assert (Hp' : 0 <= p < 32) by lia.
    repeat split; try lia.
    apply new_chunked_value in Hv. subst v.
    rewrite (chunked_encoding o c p), (chunked_is_chunked_iff o c p) in Hch by (assumption || lia).
    destruct (Z.eqb_spec c 0), (Z.eqb_spec p 0); cbn in Hch; try discriminate; auto.
  - intros (Ho & Hal & Hc & Hp & Hcp). unfold new_chunked.
    rewrite (chunked_encoding o c p) by (assumption || lia).
    unfold decode. rewrite chunked_has_oop_tag, hs_assert_true by assumption.
    rewrite chunked_decode_oop by assumption. unfold eqb_opt. rewrite Z.eqb_refl, hs_assert_true.
    rewrite chunked_decode_chunk, Z.eqb_refl, hs_assert_true by assumption.
    rewrite chunked_decode_pow, Z.eqb_refl, hs_assert_true by assumption.
    rewrite (chunked_is_chunked_iff o c p) by (assumption || lia).
    destruct (Z.eqb_spec c 0), (Z.eqb_spec p 0); try (exfalso; tauto); cbn; discriminate.
Qed.

(** [is_null()] on constructed entries: an [oop*] entry is null exactly for
    the null address, a [narrowOop*] entry never is (its tag bit is set), and
    neither is a chunked entry built in a debug build. *)
Theorem entry_is_null (b : build) (o : Z) :
  0 <= o < 2 ^ 49 ->
  (forall v, new_oop b o = Some v -> is_null v = (o =? 0)) /\
  (forall v, new_narrow_oop b o = Some v -> is_null v = false) /\
  (forall c p v, new_chunked Debug o c p = Some v -> is_null v = false).
Proof.
  intros Ho. split; [|split].
  - intros v Hv. apply new_oop_value in Hv. subst v.
    unfold is_null, OopTag. rewrite encode_oop_small, Z.add_0_r by lia. reflexivity.
  - intros v Hv. apply new_narrow_oop_value in Hv. subst v.
    unfold is_null, NarrowOopTag. rewrite encode_oop_small by lia.
    apply Z.eqb_neq. lia.
  - intros c p v Hv. destruct (new_chunked_debug_sound _ _ _ _ Hv) as (_ & _ & _ & Hch).
    unfold is_null. apply Z.eqb_neq. intros ->. discriminate Hch.
Qed.

Lemma entry_is_null_witness :
  0 <= 0 < 2 ^ 49 /\ exists v, new_narrow_oop Debug 0 = Some v /\ is_null v = false.
Proof.
  assert (Ho : 0 <= 0 < 2 ^ 49) by lia. split; [exact Ho|].
  destruct (new_narrow_oop Debug 0) as [v|] eqn:E; [|vm_compute in E; discriminate].
  exists v. split; [reflexivity|].
  exact (proj1 (proj2 (entry_is_null Debug 0 Ho)) v E).
Defined.

(** The tag bit tells [oop*] and [narrowOop*] entries apart: each is
    classified by [is_oop_ptr] / [is_narrow_oop_ptr] as what it was built
    from, reads back through its own accessor, and reading it through the
    other accessor fails the tag assertion of [decode] in a debug build;
    chunked entries are neither. *)
Theorem entry_kind (b : build) (o : Z) :
  0 <= o < 2 ^ 49 -> Z.land o 3 = 0 ->
  (forall v, new_oop b o = Some v ->
     is_oop_ptr v = true /\ is_narrow_oop_ptr v = false /\
     to_oop_ptr b v = Some o /\ to_narrow_oop_ptr Debug v = None) /\
  (forall v, new_narrow_oop b o = Some v ->
     is_narrow_oop_ptr v = true /\ is_oop_ptr v = false /\
     to_narrow_oop_ptr b v = Some o /\ to_oop_ptr Debug v = None) /\
  (forall c p v, 1 <= c < 1024 -> 0 <= p < 32 -> new_chunked b o c p = Some v ->
     is_oop_ptr v = false /\ is_narrow_oop_ptr v = false /\ to_narrow_oop_ptr Debug v = None).
Proof.
  intros Ho Hal. split; [|split].
  - intros v Hv. apply new_oop_value in Hv.
    rewrite encode_oop_small in Hv by (unfold OopTag; lia). subst v.
    unfold is_oop_ptr, is_narrow_oop_ptr, to_oop_ptr, to_narrow_oop_ptr, NarrowOopTag.
    change 1 with TagMask.
    rewrite plain_not_chunked, plain_tag, decode_plain by (unfold OopTag; lia || assumption).
    unfold decode, has_tag. rewrite plain_tag by (unfold OopTag; lia || assumption).
    repeat split; reflexivity.
  - intros v Hv. apply new_narrow_oop_value in Hv.
    rewrite encode_oop_small in Hv by (unfold NarrowOopTag; lia). subst v.
    unfold is_oop_ptr, is_narrow_oop_ptr, to_oop_ptr, to_narrow_oop_ptr, NarrowOopTag.
    assert (Ht : Z.land (o + 1) 1 = 1) by (apply (plain_tag o); (assumption || lia)).
    rewrite Ht, plain_not_chunked by (lia || assumption).
    rewrite decode_plain by (lia || assumption).
    unfold decode, has_tag. rewrite plain_tag by (lia || assumption).
    repeat split; reflexivity.
  - intros c p v Hc Hp Hv. apply new_chunked_value in Hv.
    rewrite (chunked_encoding o c p) in Hv by (assumption || lia). subst v.
    assert (Ht : has_tag (Z.lor (Z.lor o (Z.shiftl c 54)) (Z.shiftl p 49)) OopTag = true)
      by (apply chunked_has_oop_tag; (assumption || lia)).
    unfold has_tag in Ht. apply Z.eqb_eq in Ht.
    unfold is_oop_ptr, is_narrow_oop_ptr, to_narrow_oop_ptr, decode, has_tag, NarrowOopTag.
    change 1 with TagMask. rewrite Ht, chunked_is_chunked by (lia || assumption).
    repeat split; reflexivity.
Qed.

Lemma entry_kind_witness :
  (0 <= 4096 < 2 ^ 49 /\ Z.land 4096 3 = 0) /\
  exists v, new_narrow_oop Debug 4096 = Some v /\
    is_narrow_oop_ptr v = true /\ is_oop_ptr v = false /\
    to_narrow_oop_ptr Debug v = Some 4096 /\ to_oop_ptr Debug v = None.
Proof.
  assert (Ho : 0 <= 4096 < 2 ^ 49) by lia. assert (Ha : Z.land 4096 3 = 0) by reflexivity.
  split; [split; assumption|].
  destruct (new_narrow_oop Debug 4096) as [v|] eqn:E; [|vm_compute in E; discriminate].
  exists v. split; [reflexivity|].
  exact (proj1 (proj2 (entry_kind Debug 4096 Ho Ha)) v E).
Defined.

(** ** Further properties of the array slicer *)

Import ObjArrayProcessor ObjArrayFacts.

(** Every entry the slicer queues passes the debug assertions of
    [G1TaskQueueEntry(array, chunk, pow)] for an aligned array address below
    [2^49], and reads back as that array, chunk and pow. *)
Theorem queued_entries_constructible (b : build) (stride len c p o : Z) :
  1 <= stride -> 1 <= len <= 2 ^ 31 - 1 -> queued stride len b c p ->
  0 <= o < 2 ^ 49 -> Z.land o 3 = 0 ->
  exists v, new_chunked Debug o c p = Some v /\
    to_oop Debug v = Some o /\ chunk v = c /\ pow v = p /\ is_array_slice v = true.
Proof.
  intros Hs Hl Hq Ho Hal.
  destruct (queued_full stride len Hs b c p Hl Hq) as (H1 & H2 & _ & _).
  destruct (new_chunked Debug o c p) as [v|] eqn:Hv.
  - destruct (new_chunked_debug_sound _ _ _ _ Hv) as (Hd & Hc & Hp & Hch).
    exists v. repeat split; assumption.
  - rewrite new_chunked_in_range in Hv by (assumption || lia). discriminate.
Qed.

Lemma queued_entries_constructible_witness :
  (1 <= 16 /\ 1 <= 1000 <= 2 ^ 31 - 1 /\ queued 16 1000 Debug 3 8 /\
   0 <= 4096 < 2 ^ 49 /\ Z.land 4096 3 = 0) /\
  exists v, new_chunked Debug 4096 3 8 = Some v /\
    to_oop Debug v = Some 4096 /\ TaskQueueEntry.chunk v = 3 /\ TaskQueueEntry.pow v = 8 /\
    is_array_slice v = true.
Proof.
  assert (Hq : queued 16 1000 Debug 3 8).
  { eapply queued_obj; [vm_compute; reflexivity | simpl; tauto]. }
  split; [repeat split; (lia || exact Hq || reflexivity)|].
  apply (queued_entries_constructible Debug 16 1000 3 8 4096);
    (lia || exact Hq || reflexivity).
Defined.

(** [process_slice] halves its chunk until it is at most
    [ObjArrayMarkingStride] long or the chunk number can no longer double
    below [chunk_size()]; it pushes one entry per halving, at most nine, and
    scans the last [2^pow'] elements itself. *)
Theorem process_slice_granularity (b : build) (stride len c p : Z) :
  1 <= stride -> 1 <= c < 1024 -> 0 <= p -> c * 2 ^ p <= len ->
  exists evs from to p',
    process_slice stride len b c p = Some (evs ++ [Scan from to]) /\
    0 <= p' <= p /\ to - from = 2 ^ p' /\ Z.of_nat (length evs) = p - p' /\
    (length evs <= 9)%nat /\
    (to - from <= stride \/ 1024 <= to / (to - from) * 2).
Proof.
  intros Hs Hc Hp Hlen.
  destruct (process_slice_spec stride len Hs b c p Hc Hp Hlen)
    as (evs & from & to & Hsl & _ & Hft & Hto & _).
  exists evs, from, to. pose proof Hsl as Hsl0.
  unfold process_slice in Hsl.
  destruct (slice_loop stride (Z.to_nat p) c p) as [[evs' c'] p'] eqn:Hrun.
  destruct (slice_loop_spec stride Hs _ _ _ _ _ _ Hrun) as (_ & Hc' & _ & Hlt & _); [lia|lia|].
  destruct (slice_loop_end stride Hs _ _ _ _ _ _ Hrun) as (Hp' & Hc'eq & Hl & Hend); [lia|lia|].
  destruct (hs_assert b _); [|discriminate].
  rewrite shiftl_pow in Hsl.
  destruct (hs_assert b _); [|discriminate].
  destruct (hs_assert b _); [|discriminate].
  injection Hsl as Hsl. apply app_inj_tail in Hsl as [<- Hsc]. injection Hsc as <- <-.
  pose proof (Z.pow_pos_nonneg 2 p' ltac:(lia) ltac:(lia)) as HP.
  exists p'. split; [exact Hsl0|]. split; [lia|]. split; [ring|].
  split; [exact Hl|]. split.
  - assert (Hk : 2 ^ (p - p') < 1024).
    { specialize (Hlt ltac:(lia)). rewrite Hc'eq in Hlt.
      pose proof (Z.pow_pos_nonneg 2 (p - p') ltac:(lia) ltac:(lia)). nia. }
    assert (p - p' <= 9).
    { destruct (Z.le_gt_cases (p - p') 9) as [|Hgt]; [assumption|].
      assert (2 ^ 10 <= 2 ^ (p - p')) by (apply Z.pow_le_mono_r; lia). lia. }
    lia.
  - replace (c' * 2 ^ p' - (c' - 1) * 2 ^ p') with (2 ^ p') by ring.
    rewrite Z.div_mul by lia. exact Hend.
Qed.

Lemma process_slice_granularity_witness :
  (1 <= 16 /\ 1 <= 3 < 1024 /\ 0 <= 8 /\ 3 * 2 ^ 8 <= 1000) /\
  exists evs from to p',
    process_slice 16 1000 Debug 3 8 = Some (evs ++ [Scan from to]) /\
    0 <= p' <= 8 /\ to - from = 2 ^ p' /\ Z.of_nat (length evs) = 8 - p' /\
    (length evs <= 9)%nat /\
    (to - from <= 16 \/ 1024 <= to / (to - from) * 2).
Proof.
  split; [repeat split; lia|].
  apply (process_slice_granularity Debug 16 1000 3 8); lia.
Defined.

(** ** Further properties of [MarkSweep::adjust_pointers] *)

Import AdjustPointer AdjustPointerFacts.

Section AdjustExtras.
Context {T : Type} `{HeapOop T}.
Variable is_in is_marked : Z -> bool.
Variable forwardee : Z -> Z.
Variable is_object_aligned : Z -> bool.
Variable oop_fields : Z -> list Z.
Variable oop_size : Z -> Z.

(** [adjust_pointers(obj)] returns the object's size, never writes a
    header and never writes a slot outside the object's reference fields. *)
Theorem adjust_pointers_frame b h obj h' n :
  AdjustPointer.adjust_pointers is_in is_marked forwardee is_object_aligned oop_fields oop_size
    b h obj = Some (h', n) ->
  n = oop_size obj /\ mark h' = mark h /\
  forall q, ~ In q (oop_fields obj) -> slot h' q = slot h q.
Proof.
  unfold AdjustPointer.adjust_pointers.
  destruct (adjust_slots _ _ _ _ b h (oop_fields obj)) as [h1|] eqn:H1; [|discriminate].
  intros [= <- <-]. split; [reflexivity|]. exact (adjust_slots_frame _ _ _ _ _ _ _ _ H1).
Qed.

(** With distinct field slots, and the debug assertions holding for every
    field (or in a product build), [adjust_pointers(obj)] succeeds and leaves
    in each field exactly what [adjust_pointer] computes from the field's
    original content: the forwardee of a marked referent, the old value
    otherwise; the rest of the heap is unchanged. *)
Theorem adjust_pointers_fields b h obj :
  NoDup (oop_fields obj) ->
  (b = Product \/ forall p, In p (oop_fields obj) ->
     asserts_hold is_in is_marked forwardee is_object_aligned (mark h) (slot h p)) ->
  exists h', AdjustPointer.adjust_pointers is_in is_marked forwardee is_object_aligned
               oop_fields oop_size b h obj = Some (h', oop_size obj) /\
    mark h' = mark h /\
    forall q, slot h' q = if existsb (Z.eqb q) (oop_fields obj)
                          then adjusted is_marked forwardee (mark h) (slot h q) else slot h q.
Proof.
  intros Hnd Hok. unfold AdjustPointer.adjust_pointers.
  destruct (adjust_slots_effect is_in is_marked forwardee is_object_aligned b _ h Hnd Hok)
    as (h' & -> & Hm & Hs).
  exists h'. auto.
Qed.

End AdjustExtras.

(** An object at 0 with reference fields at 8 and 16: the first refers to
    the marked object at 64, forwarded to 32; the second is null. *)
Lemma adjust_pointers_frame_witness :
  exists h' n,
    AdjustPointer.adjust_pointers (fun _ => true) (fun m => Z.land m 3 =? 3) (fun o => o - 32)
      (fun a => a mod 8 =? 0) (fun _ => [8; 16]) (fun _ => 3) Debug
      (mk_heap (fun q => if q =? 8 then 64 else 0) (fun _ => 3)) 0 = Some (h', n) /\
    n = 3 /\ mark h' = (fun _ => 3) /\
    forall q, ~ In q [8; 16] -> slot h' q = (if q =? 8 then 64 else 0).
Proof.
  destruct (AdjustPointer.adjust_pointers (fun _ => true) (fun m => Z.land m 3 =? 3)
      (fun o => o - 32) (fun a => a mod 8 =? 0) (fun _ => [8; 16]) (fun _ => 3) Debug
      (mk_heap (fun q => if q =? 8 then 64 else 0) (fun _ => 3)) 0) as [[h' n]|] eqn:E;
    [|vm_compute in E; discriminate].
  exists h', n. split; [reflexivity|].
  exact (adjust_pointers_frame (fun _ => true) (fun m => Z.land m 3 =? 3) (fun o => o - 32)
           (fun a => a mod 8 =? 0) (fun _ => [8; 16]) (fun _ => 3) Debug _ 0 h' n E).
Defined.

Lemma adjust_pointers_fields_witness :
  (NoDup [8; 16] /\
   forall p, In p [8; 16] ->
     asserts_hold (fun _ => true) (fun m => Z.land m 3 =? 3) (fun o => o - 32)
       (fun a => a mod 8 =? 0) (fun _ => 3) ((fun q => if q =? 8 then 64 else 0) p)) /\
  exists h',
    AdjustPointer.adjust_pointers (fun _ => true) (fun m => Z.land m 3 =? 3) (fun o => o - 32)
      (fun a => a mod 8 =? 0) (fun _ => [8; 16]) (fun _ => 3) Debug
      (mk_heap (fun q => if q =? 8 then 64 else 0) (fun _ => 3)) 0 = Some (h', 3) /\
    mark h' = (fun _ => 3) /\
    forall q, slot h' q =
      if existsb (Z.eqb q) [8; 16]
      then adjusted (fun m => Z.land m 3 =? 3) (fun o => o - 32) (fun _ => 3)
             ((fun q => if q =? 8 then 64 else 0) q)
      else (fun q => if q =? 8 then 64 else 0) q.
Proof.
  assert (Hnd : NoDup [8; 16]).
  { constructor; [cbn; intros [Hx|[]]; discriminate|].
    constructor; [cbn; tauto | constructor]. }
  assert (Hok : forall p, In p [8; 16] ->
     asserts_hold (fun _ => true) (fun m => Z.land m 3 =? 3) (fun o => o - 32)
       (fun a => a mod 8 =? 0) (fun _ => 3) ((fun q => if q =? 8 then 64 else 0) p)).
  { intros p [<-|[<-|[]]]; cbn; [intros _; split; [reflexivity|]; split; [discriminate|reflexivity]|].
    discriminate. }
  split; [split; assumption|].
  exact (adjust_pointers_fields (fun _ => true) (fun m => Z.land m 3 =? 3) (fun o => o - 32)
           (fun a => a mod 8 =? 0) (fun _ => [8; 16]) (fun _ => 3) Debug
           (mk_heap (fun q => if q =? 8 then 64 else 0) (fun _ => 3)) 0 Hnd (or_intror Hok)).
Defined.

(** ** Further properties of [GenMarkSweep::invoke_at_safepoint] *)

Import GenMarkSweep GenMarkSweepFacts.

(** A product build completes a collection exactly when a reference
    processor is given: with a null one, phase 1 crashes when it
    dereferences it.  A debug build aborts when an assertion of
    [invoke_at_safepoint] or of phase 1 fails: the VM is not at a safepoint;
    the soft-reference policy asks to clear all soft references but
    [clear_all_softrefs] is false; a reference processor is already
    installed; the given one is null; marking and reference processing leave
    the marking stack non-empty; or the derived pointer table is not
    active. *)
Theorem invoke_aborts {H : Type} (C : collaborators H) b rp cas s :
  (b = Product -> (invoke_at_safepoint C b rp cas s = None <-> rp = None)) /\
  (b = Debug ->
   is_at_safepoint C = false \/
   (should_clear_all_soft_refs C (heap s) = true /\ cas = false) \/
   ref_processor s <> None \/ rp = None \/
   (let '(h1, ms1, _) := follow_roots C (heap s) (marking_stack s) in
    let '(_, ms2, _) := process_discovered_references C h1 ms1 in ms2 <> []) \/
   derived_pointer_table_active s = false ->
   invoke_at_safepoint C b rp cas s = None).
Proof.
  rewrite invoke_closed.
  destruct (follow_roots C (heap s) (marking_stack s)) as [[h1 ms1] r1].
  destruct (process_discovered_references C h1 ms1) as [[h2 ms2] r2].
  cbv zeta. destruct (preserve_fold _ (r1 ++ r2) 0 [] _) as [[cnt arr] ov].
  split; intros ->.
  - destruct rp; cbn; split; intro; congruence.
  - intros Hc.
    destruct (is_at_safepoint C), (should_clear_all_soft_refs C (heap s)), cas,
      (ref_processor s), rp, ms2, (derived_pointer_table_active s);
      cbn in *; try reflexivity; exfalso; intuition congruence.
Qed.

(** A product build given no reference processor, and a debug build started
    while a reference processor is still installed, both abort. *)
Lemma invoke_aborts_witness :
  invoke_at_safepoint evacuating_heap Product None false (collecting_state 5) = None /\
  invoke_at_safepoint evacuating_heap Debug (Some 1) false (collecting_state 5) = None.
Proof.
  split.
  - apply (proj1 (invoke_aborts evacuating_heap Product None false (collecting_state 5)) eq_refl).
    reflexivity.
  - apply (proj2 (invoke_aborts evacuating_heap Debug (Some 1) false (collecting_state 5)) eq_refl).
    right; right; left. discriminate.
Defined.

(** After a collection the heap is the marked heap prepared, adjusted and
    compacted, with the preserved headers written back: first the records
    marking preserved into the scratch block (up to its capacity, in the
    order preserved), then the overflow stack from its top (the remaining
    records, last preserved first, then any record it already held), each
    record's object moved to its forwardee.  The reference processor is
    cleared, [_total_invocations] is one higher modulo 2^32, the marking
    and preserved-mark overflow stacks are empty, the derived pointer table
    is left inactive, and the preserved-mark capacity is the scratch block's
    size in records. *)
Theorem invoke_final_state {H : Type} (C : collaborators H) b rp cas s s' :
  invoke_at_safepoint C b rp cas s = Some s' ->
  let '(h1, ms1, r1) := follow_roots C (heap s) (marking_stack s) in
  let '(h2, _, r2) := process_discovered_references C h1 ms1 in
  let hp := prepare_for_compaction C h2 in
  let k := Z.to_nat (preserved_count_max s') in
  heap s' = restore_preserved C (compact C (adjust_pointers C hp))
              (map (adjust_preserved_mark C hp)
                 (firstn k (r1 ++ r2) ++ rev (skipn k (r1 ++ r2)) ++ preserved_overflow_stack s)) /\
  ref_processor s' = None /\
  total_invocations s' = (total_invocations s + 1) mod 2 ^ 32 /\
  marking_stack s' = [] /\ preserved_overflow_stack s' = [] /\
  preserved_count_max s' =
    match gather_scratch C (heap s) with
    | Some num_words => num_words * HeapWordSize / sizeof_PreservedMark
    | None => 0
    end /\
  derived_pointer_table_active s' = false.
Proof.
  rewrite invoke_closed.
  destruct (follow_roots C (heap s) (marking_stack s)) as [[h1 ms1] r1].
  destruct (process_discovered_references C h1 ms1) as [[h2 ms2] r2].
  cbv zeta. set (R := r1 ++ r2).
  set (M := match gather_scratch C (heap s) with
            | Some n => n * HeapWordSize / sizeof_PreservedMark | None => 0 end).
  rewrite preserve_fold_closed, Z.sub_0_r, app_nil_l.
  assert (Hn : Z.to_nat (Z.of_nat (Nat.min (Z.to_nat M) (length R))) =
               length (firstn (Z.to_nat M) R)) by (rewrite length_firstn; lia).
  cbn beta iota zeta.
  destruct (match b with Debug => _ | Product => _ end); [discriminate|].
  intros [= <-].
  cbn [heap log ref_processor total_invocations marking_stack preserved_count_max
       preserved_count preserved_marks preserved_array preserved_overflow_stack
       derived_pointer_table_active].
  split; [|repeat split].
  rewrite Hn, firstn_all, skipn_all, app_nil_r.
  rewrite firstn_all2 by (rewrite length_map; lia).
  rewrite <- map_app. reflexivity.
Qed.

(** Two headers are preserved, one in the scratch block and one on the
    overflow stack; after compaction both are written back at the objects'
    new addresses. *)
Lemma invoke_final_state_witness :
  exists s', invoke_at_safepoint sliding_heap Debug (Some 1) false (idle_state (fun _ => 0)) = Some s' /\
    heap s' 0 = 1 /\ heap s' 8 = 2 /\ heap s' 16 = 0 /\
    total_invocations s' = 1 /\ preserved_count_max s' = 1.
Proof.
  destruct (invoke_at_safepoint sliding_heap Debug (Some 1) false (idle_state (fun _ => 0)))
    as [s'|] eqn:E; [|vm_compute in E; discriminate].
  exists s'. split; [reflexivity|].
  pose proof (invoke_final_state sliding_heap Debug (Some 1) false (idle_state (fun _ => 0)) s' E)
    as P.
  cbn [follow_roots process_discovered_references sliding_heap] in P.
  destruct P as (Hh & _ & Hi & _ & _ & Hm & _).
  rewrite Hm in Hh. rewrite Hh, Hi, Hm. vm_compute. repeat split.
Defined.
